(** * Shallow embedding of safekeeper (src/safekeeper.go)

    Go strings are byte sequences: they are modelled as [list ascii]
    (an [ascii] is one of 256 byte values).  The program is a single
    forward pass; [log.Fatal] ends the process, so it is modelled as an
    exit outcome of a small trace monad that records the observable file
    system effects (stat, open, write). *)

From Stdlib Require Import Ascii String.
From Stdlib Require Import List Bool Arith Lia Permutation.
Import ListNotations.
Open Scope list_scope.

Definition gostr := list ascii.

(** String literals of the source, as byte lists. *)
Definition lit (s : string) : gostr := list_ascii_of_string s.

Definition nl : ascii := "010"%char.
Definition cr : ascii := "013"%char.

(** ** Library functions used by the source *)

(** [strings.HasPrefix t s]. *)
Fixpoint is_prefix (t s : gostr) : bool :=
  match t, s with
  | [], _ => true
  | a :: t', b :: s' => Ascii.eqb a b && is_prefix t' s'
  | _ :: _, [] => false
  end.

(** [strings.Contains s t]. *)
Fixpoint contains (t s : gostr) : bool :=
  is_prefix t s || match s with [] => false | _ :: s' => contains t s' end.

(** [strings.Split(s, ",")]. *)
Fixpoint split_go (acc s : gostr) : list gostr :=
  match s with
  | [] => [rev acc]
  | c :: s' => if Ascii.eqb c ","%char then rev acc :: split_go [] s'
               else split_go (c :: acc) s'
  end.

Definition split_comma (s : gostr) : list gostr := split_go [] s.

(** [fmt.Sprintln(s)] for a single string operand. *)
Definition Sprintln (s : gostr) : gostr := s ++ [nl].

(** A [strings.Replacer] built by [strings.NewReplacer(old, new)] with one
    pair.  As [old] has more than one byte here ("ENV_" ++ key), Go uses its
    single-string replacer: the leftmost occurrences of [old] are replaced,
    scanning left to right, without overlap.  [skip] counts the bytes of a
    replaced occurrence still to be consumed. *)
Record replacer := mkReplacer { r_old : gostr; r_new : gostr }.

Fixpoint replace_go (r : replacer) (skip : nat) (s : gostr) : gostr :=
  match s with
  | [] => []
  | c :: s' =>
      match skip with
      | S k => replace_go r k s'
      | O => if is_prefix (r_old r) s
             then r_new r ++ replace_go r (pred (length (r_old r))) s'
             else c :: replace_go r 0 s'
      end
  end.

(** [replacer.Replace(s)]. *)
Definition Replace (r : replacer) (s : gostr) : gostr := replace_go r 0 s.

(** [os.Getenv]: the value of a variable, the empty string when it is
    unset; the empty name is never looked up. *)
Definition environ := gostr -> gostr.

Definition getenv (env : environ) (k : gostr) : gostr :=
  match k with [] => [] | _ => env k end.

(** [map[string]string]: an association list without duplicate keys;
    assignment overwrites. *)
Definition kvmap := list (gostr * gostr).

Definition kv_insert (k v : gostr) (m : kvmap) : kvmap :=
  (k, v) :: filter (fun p => if list_eq_dec ascii_dec (fst p) k then false else true) m.

(** Go leaves the iteration order of a map unspecified (and randomises it):
    a run is parameterised by the order [it m] in which [range] visits the
    entries of [m]; a valid order is a permutation of the entries. *)
Definition map_iter := kvmap -> kvmap.

Definition valid_iter (it : map_iter) : Prop := forall m, Permutation (it m) m.

Definition iter_id : map_iter := fun m => m.
Definition iter_rev : map_iter := fun m => rev m.

(** [bufio.Scanner] with [ScanLines]: the data is cut at each newline, a
    final fragment without newline is a line when non-empty, one trailing
    carriage return is dropped from every line, and a line of
    [MaxScanTokenSize] bytes or more (before the newline) stops the scan
    with [ErrTooLong]. *)
Definition MaxScanTokenSize : nat := 64 * 1024.

Fixpoint raw_lines_go (acc d : gostr) : list gostr :=
  match d with
  | [] => match acc with [] => [] | _ => [rev acc] end
  | c :: d' => if Ascii.eqb c nl then rev acc :: raw_lines_go [] d'
               else raw_lines_go (c :: acc) d'
  end.

Definition raw_lines (d : gostr) : list gostr := raw_lines_go [] d.

Definition dropCR (l : gostr) : gostr :=
  match rev l with
  | c :: r => if Ascii.eqb c cr then rev r else l
  | [] => l
  end.

Definition scan_lines (d : gostr) : option (list gostr) :=
  let raw := raw_lines d in
  if forallb (fun l => length l <? MaxScanTokenSize) raw
  then Some (map dropCR raw) else None.

(** ** Effects *)

Inductive error :=
| ErrMissingEnv (key : gostr)       (* "Environment variable [%s] not found" *)
| ErrUnsupportedInput               (* "Only single file inputs are currently supported" *)
| ErrStat (path : gostr)            (* os.Stat failure inside isFile *)
| ErrTemplateNotFound (path : gostr)
| ErrRead                           (* scanner.Err() *)
| ErrWrite (path : gostr).

Inductive entry := Dir | File (data : gostr).

(** The file system as the program sees it. *)
Record fs := mkFs { stat : gostr -> option entry; writable : gostr -> bool }.

Inductive event :=
| EvStat (path : gostr)
| EvOpen (path : gostr)
| EvWriteFile (path data : gostr).

Inductive outcome (A : Type) := Done (a : A) | Exit (e : error).
Arguments Done {A} a.
Arguments Exit {A} e.

Definition M (A : Type) := list event -> list event * outcome A.

Definition ret {A} (a : A) : M A := fun tr => (tr, Done a).
Definition bind {A B} (m : M A) (f : A -> M B) : M B :=
  fun tr => match m tr with
            | (tr', Done a) => f a tr'
            | (tr', Exit e) => (tr', Exit e)
            end.
(** [log.Fatal]: the process exits. *)
Definition fatal {A} (e : error) : M A := fun tr => (tr, Exit e).
Definition emit (ev : event) : M unit := fun tr => (tr ++ [ev], Done tt).

Notation "x <- m ;; f" := (bind m (fun x => f))
  (at level 61, m at next level, right associativity).

(** ** The program *)

(** Command-line flags, read as globals by [writeHeader]. *)
Record flags := mkFlags { keyNames : gostr; output : gostr; paths : list gostr }.

(** [loadKeyValues]: keys are looked up in the order given. *)
Fixpoint loadKeyValues_go (env : environ) (keys : list gostr) (m : kvmap)
  : error + kvmap :=
  match keys with
  | [] => inr m
  | key :: ks =>
      match getenv env key with
      | [] => inl (ErrMissingEnv key)
      | value => loadKeyValues_go env ks (kv_insert key value m)
      end
  end.

Definition loadKeyValues (env : environ) (keys : list gostr) : error + kvmap :=
  loadKeyValues_go env keys [].

(** [isFile]: a failing [os.Stat] is fatal. *)
Definition isFile (F : fs) (name : gostr) : M bool :=
  _ <- emit (EvStat name) ;;
  match stat F name with
  | None => fatal (ErrStat name)
  | Some Dir => ret false
  | Some (File _) => ret true
  end.

(** [openTemplateFile]: [os.Open(path + ".safekeeper")]; opening a
    directory succeeds, reading it fails. *)
Definition templateFileName (path : gostr) : gostr := path ++ lit ".safekeeper".

Definition openTemplateFile (F : fs) (path : gostr) : M (error + entry) :=
  let name := templateFileName path in
  _ <- emit (EvOpen name) ;;
  match stat F name with
  | None => ret (inl (ErrTemplateNotFound name))
  | Some e => ret (inr e)
  end.

Definition token (key : gostr) : gostr := lit "ENV_" ++ key.

(** [setupReplacers]: one replacer per entry, in map iteration order. *)
Definition setupReplacers (it : map_iter) (keyValues : kvmap) : list replacer :=
  map (fun p => mkReplacer (token (fst p)) (snd p)) (it keyValues).

(** [for _, replacer := range replacers { line = replacer.Replace(line) }] *)
Definition apply_replacers (rs : list replacer) (line : gostr) : gostr :=
  fold_left (fun l r => Replace r l) rs line.

(** The condition of the [if] in the scan loop. *)
Definition is_directive (line : gostr) : bool :=
  contains (lit "go:generate") line && contains (lit "safekeeper") line.

(** The scan loop of [substituteValues], appending to [buffer]. *)
Fixpoint scan_loop (rs : list replacer) (lines : list gostr) (buffer : gostr) : gostr :=
  match lines with
  | [] => buffer
  | line :: ls =>
      scan_loop rs ls
        (if negb (is_directive line)
         then buffer ++ Sprintln (apply_replacers rs line) else buffer)
  end.

Definition read_template (e : entry) : option (list gostr) :=
  match e with Dir => None | File d => scan_lines d end.

Definition substituteValues (it : map_iter) (F : fs) (path : gostr)
  (keyValues : kvmap) (buffer : gostr) : M (error + gostr) :=
  r <- openTemplateFile F path ;;
  match r with
  | inl e => fatal e
  | inr file =>
      let replacers := setupReplacers it keyValues in
      match read_template file with
      | None => ret (inl ErrRead)
      | Some lines => ret (inr (scan_loop replacers lines buffer))
      end
  end.

Definition header_line1 : gostr :=
  lit "// GENERATED by safekeeper (https://github.com/alexandre-normand/safekeeper, DO NOT EDIT".

(** [writeHeader]: writing to a [bytes.Buffer] never fails. *)
Definition writeHeader (fl : flags) (buffer : gostr) : gostr :=
  buffer ++ Sprintln header_line1
         ++ lit "//go:generate safekeeper --keys=" ++ keyNames fl
         ++ (match output fl with [] => [] | o => lit " --output=" ++ o end)
         ++ lit " $GOFILE" ++ [nl].

(** [ioutil.WriteFile]: [writable F path] says whether the whole call
    succeeds. Only the outcome of the call is modelled: on failure no write
    event is recorded, although Go may have created, truncated or partly
    written the file before the error. *)
Definition writeFile (F : fs) (path data : gostr) : M unit :=
  if writable F path then emit (EvWriteFile path data) else fatal (ErrWrite path).

Definition run (it : map_iter) (env : environ) (F : fs) (fl : flags)
  (keys out : gostr) (inputPaths : list gostr) : M unit :=
  let k := split_comma keys in
  match loadKeyValues env k with
  | inl e => fatal e
  | inr keyValues =>
      match inputPaths with
      | [p] =>
          b <- isFile F p ;;
          if b then
            let buffer := writeHeader fl [] in
            r <- substituteValues it F p keyValues buffer ;;
            match r with
            | inl e => fatal e
            | inr src =>
                let out' := match out with [] => p | _ => out end in
                writeFile F out' src
            end
          else fatal ErrUnsupportedInput
      | _ => fatal ErrUnsupportedInput
      end
  end.

Definition main (it : map_iter) (env : environ) (F : fs) (fl : flags) : M unit :=
  run it env F fl (keyNames fl) (output fl) (paths fl).

(** ** [errWriter] *)

(** An error value of the Go library. *)
Inductive go_error := GoError (msg : gostr).

(** [type errWriter struct { b *bytes.Buffer; err error }]. *)
Record errWriter := mkErrWriter { ew_b : gostr; ew_err : option go_error }.

(** [ew.writeString(value)], for a buffer whose [WriteString] is [write]:
    nothing happens once an error is recorded; otherwise the write is done
    and its error recorded. *)
Definition writeString (write : gostr -> gostr -> gostr * option go_error)
  (ew : errWriter) (value : gostr) : errWriter :=
  match ew_err ew with
  | Some _ => ew
  | None => let (b', err) := write (ew_b ew) value in mkErrWriter b' err
  end.

(** [bytes.Buffer.WriteString]: appends and always returns a nil error. *)
Definition Buffer_WriteString (b value : gostr) : gostr * option go_error := (b ++ value, None).

(** [writeHeader] as written, through the [errWriter]: the final buffer
    and the returned [ew.err]. *)
Definition writeHeader_go (write : gostr -> gostr -> gostr * option go_error)
  (fl : flags) (buffer : gostr) : gostr * option go_error :=
  let ew := mkErrWriter buffer None in
  let ew := writeString write ew (Sprintln header_line1) in
  let ew := writeString write ew (lit "//go:generate safekeeper --keys=" ++ keyNames fl) in
  let ew := match output fl with
            | [] => ew
            | o => writeString write ew (lit " --output=" ++ o)
            end in
  let ew := writeString write ew (lit " $GOFILE" ++ [nl]) in
  (ew_b ew, ew_err ew).

(** ** The spec's substitution, for comparison

    Modelled from the spec's words ("every occurrence of every key's
    placeholder token is replaced with that key's resolved value"): one
    left-to-right pass over the original line; where the token of a key
    starts, it is replaced by the key's value.  [ps] pairs tokens with
    values. *)
Fixpoint find_token (ps : kvmap) (s : gostr) : option (gostr * gostr) :=
  match ps with
  | [] => None
  | p :: ps' => if is_prefix (fst p) s then Some p else find_token ps' s
  end.

Fixpoint subst_all_go (ps : kvmap) (skip : nat) (s : gostr) : gostr :=
  match s with
  | [] => []
  | c :: s' =>
      match skip with
      | S k => subst_all_go ps k s'
      | O => match find_token ps s with
             | Some p => snd p ++ subst_all_go ps (pred (length (fst p))) s'
             | None => c :: subst_all_go ps 0 s'
             end
      end
  end.

Definition subst_all (ps : kvmap) (s : gostr) : gostr := subst_all_go ps 0 s.

Definition kv_token_pairs (m : kvmap) : kvmap :=
  map (fun p => (token (fst p), snd p)) m.

Definition spec_subst (m : kvmap) (line : gostr) : gostr :=
  subst_all (kv_token_pairs m) line.

(** ** Vocabulary of the statements *)

(** No occurrence of [b] starts inside an occurrence of [a]. *)
Definition no_overlap (a b : gostr) : Prop :=
  forall a1 a2 w, a = a1 ++ a2 -> a2 <> [] -> is_prefix b (a2 ++ w) = false.

Definition nonoverlapping (a b : gostr) : Prop := no_overlap a b /\ no_overlap b a.

Fixpoint suffixes (a : gostr) : list gostr :=
  match a with [] => [] | _ :: a' => a :: suffixes a' end.

Definition no_overlap_b (a b : gostr) : bool :=
  forallb (fun r => negb (is_prefix b r || is_prefix r b)) (suffixes a).

Definition nonoverlapping_b (a b : gostr) : bool := no_overlap_b a b && no_overlap_b b a.

(** The tokens of distinct keys never overlap. *)
Definition keys_nonoverlapping (ks : list gostr) : Prop :=
  forall k1 k2, In k1 ks -> In k2 ks -> k1 <> k2 -> nonoverlapping (token k1) (token k2).

Definition keys_nonoverlapping_b (ks : list gostr) : bool :=
  forallb (fun k1 => forallb (fun k2 =>
    if list_eq_dec ascii_dec k1 k2 then true
    else nonoverlapping_b (token k1) (token k2)) ks) ks.

(** No resolved value shares a byte with a placeholder token. *)
Definition values_token_free (env : environ) (ks : list gostr) : Prop :=
  forall k1 k2 a, In k1 ks -> In k2 ks -> In a (getenv env k1) -> ~ In a (token k2).

Definition values_token_free_b (env : environ) (ks : list gostr) : bool :=
  forallb (fun k1 => forallb (fun k2 =>
    forallb (fun a => negb (existsb (Ascii.eqb a) (token k2))) (getenv env k1)) ks) ks.

(** What the scan loop appends for one template line. *)
Definition emit_line (rs : list replacer) (line : gostr) : gostr :=
  if is_directive line then [] else Sprintln (apply_replacers rs line).

Definition body (rs : list replacer) (lines : list gostr) : gostr :=
  flat_map (emit_line rs) lines.

Definition directive_line (fl : flags) : gostr :=
  lit "//go:generate safekeeper --keys=" ++ keyNames fl
  ++ (match output fl with [] => [] | o => lit " --output=" ++ o end)
  ++ lit " $GOFILE".

Definition out_path (fl : flags) (p : gostr) : gostr :=
  match output fl with [] => p | o => o end.

(** [strings.Join(parts, ",")], the inverse direction of [split_comma]. *)
Fixpoint join_comma (parts : list gostr) : gostr :=
  match parts with
  | [] => []
  | [x] => x
  | x :: xs => x ++ ","%char :: join_comma xs
  end.

(** ** Concrete inputs *)

Open Scope string_scope.
Open Scope list_scope.

Definition env_of (l : list (string * string)) : environ :=
  fun k => match find (fun p => if list_eq_dec ascii_dec (lit (fst p)) k then true else false) l with
           | Some p => lit (snd p)
           | None => []
           end.

Definition fs_of (l : list (string * entry)) : fs :=
  mkFs (fun p => match find (fun q => if list_eq_dec ascii_dec (lit (fst q)) p then true else false) l with
                 | Some q => Some (snd q)
                 | None => None
                 end)
       (fun _ => true).

(** Flags [--keys=<keys>] with one input path, no [--output]. *)
Definition flags_for (keys : string) (path : string) : flags :=
  mkFlags (lit keys) [] [lit path].

(** A source file [a.go] and its template [a.go.safekeeper]. *)
Definition fs_tpl (template : gostr) : fs :=
  fs_of [("a.go", File (lit "package a")); ("a.go.safekeeper", File template)].

Definition line (s : string) : gostr := lit s ++ [nl].

(** The spec's example: [FOO=bar], template line [x := ENV_FOO]. *)
Definition run_foo := main iter_id (env_of [("FOO", "bar")])
  (fs_tpl (line "x := ENV_FOO")) (flags_for "FOO" "a.go") [].

(** A value that is itself a placeholder token. *)
Definition env_self := env_of [("A", "ENV_A")].
Definition run_self := main iter_id env_self (fs_tpl (line "ENV_A")) (flags_for "A" "a.go") [].

(** A one-line template. *)
Definition env_a1 := env_of [("A", "1")].
Definition run_x := main iter_id env_a1 (fs_tpl (line "x")) (flags_for "A" "a.go") [].

(** A kept template line that becomes a safekeeper directive. *)
Definition env_sk := env_of [("A", "safekeeper")].
Definition run_directive := main iter_id env_sk (fs_tpl (line "//go:generate ENV_A"))
  (flags_for "A" "a.go") [].

(** The value of [A] is the token of [B]. *)
Definition env_chain := env_of [("A", "ENV_B"); ("B", "x")].
Definition fl_ab := flags_for "A,B" "a.go".
Definition run_chain (it : map_iter) := main it env_chain (fs_tpl (line "ENV_A")) fl_ab [].

(** The spec's example: [A=1], [B=2], template [ENV_A-ENV_B]. *)
Definition env_12 := env_of [("A", "1"); ("B", "2")].
Definition fs_12 := fs_tpl (line "ENV_A-ENV_B").
Definition fl_12 := flags_for "A,B" "a.go".
Definition run_12 (it : map_iter) := main it env_12 fs_12 fl_12 [].

(** A template path that names a directory. *)
Definition fs_tpldir := fs_of [("a.go", File (lit "package a")); ("a.go.safekeeper", Dir)].

(** A template that is only a safekeeper directive. *)
Definition fs_dironly := fs_tpl (line "//go:generate safekeeper --keys=A").

(** Flags with an [--output] file. *)
Definition fl_out := mkFlags (lit "A") (lit "out.go") [lit "a.go"].

(** A template whose last line has no newline. *)
Definition run_nonl := main iter_id env_a1 (fs_tpl (lit "x")) (flags_for "A" "a.go") [].

(** Keys with an empty element; a value for [A] only. *)
Definition run_keys (keys : string) := main iter_id env_a1 (fs_tpl (line "x")) (flags_for keys "a.go").

(** Two input paths; a directory. *)
Definition fl_two := mkFlags (lit "A") [] [lit "a.go"; lit "b.go"].
Definition fs_dir := fs_of [("d", Dir); ("d.safekeeper", File (line "x"))].

(** * Lemmas on the library functions *)

Lemma skipn_app_length {A} (u w : list A) : skipn (length u) (u ++ w) = w.
Proof. induction u; simpl; auto. Qed.

Lemma is_prefix_app (t w : gostr) : is_prefix t (t ++ w) = true.
Proof. induction t as [|a t IH]; simpl; [reflexivity|]. now rewrite Ascii.eqb_refl. Qed.

Lemma is_prefix_inv (t s : gostr) : is_prefix t s = true -> exists w, s = t ++ w.
Proof.
  revert s; induction t as [|a t IH]; intros [|b s] H; simpl in H; try discriminate.
  - exists []; reflexivity.
  - exists (b :: s); reflexivity.
  - apply andb_prop in H as [H1 H2]. apply Ascii.eqb_eq in H1; subst.
    destruct (IH s H2) as [w ->]. exists w; reflexivity.
Qed.

Lemma is_prefix_ext (t u w : gostr) : is_prefix t u = true -> is_prefix t (u ++ w) = true.
Proof.
  intros H. destruct (is_prefix_inv t u H) as [w' ->].
  rewrite <- app_assoc. apply is_prefix_app.
Qed.

Lemma is_prefix_nil_r (t : gostr) : t <> [] -> is_prefix t [] = false.
Proof. destruct t; [congruence | reflexivity]. Qed.

Lemma is_prefix_head (t z : gostr) (a : ascii) :
  t <> [] -> is_prefix t (a :: z) = true -> In a t.
Proof.
  destruct t as [|b t]; [congruence|]; simpl; intros _ H.
  apply andb_prop in H as [H _]. apply Ascii.eqb_eq in H. left; exact H.
Qed.

Lemma is_prefix_split (t u z : gostr) (a : ascii) :
  is_prefix t (u ++ a :: z) = true -> is_prefix t u = true \/ In a t.
Proof.
  revert t; induction u as [|c u IH]; intros [|b t] H; simpl in *; auto.
  - apply andb_prop in H as [H _]. apply Ascii.eqb_eq in H. auto.
  - apply andb_prop in H as [H1 H2]. apply Ascii.eqb_eq in H1; subst.
    destruct (IH t H2) as [H|H]; [left | right; right]; auto.
    rewrite Ascii.eqb_refl; exact H.
Qed.

Lemma is_prefix_app_inv (b r w : gostr) :
  is_prefix b (r ++ w) = true -> is_prefix b r = true \/ is_prefix r b = true.
Proof.
  revert b; induction r as [|c r IH]; intros [|d b] H; simpl in *; auto.
  apply andb_prop in H as [H1 H2]. apply Ascii.eqb_eq in H1; subst.
  rewrite Ascii.eqb_refl; simpl. auto.
Qed.

Lemma contains_inv (t s : gostr) : contains t s = true -> exists u w, s = u ++ t ++ w.
Proof.
  induction s as [|c s IH]; simpl; intros H.
  - destruct t; simpl in H; try discriminate. exists [], []; reflexivity.
  - apply orb_prop in H as [H|H].
    + destruct (is_prefix_inv _ _ H) as [w Hw]. exists [], w; exact Hw.
    + destruct (IH H) as [u [w ->]]. exists (c :: u), w; reflexivity.
Qed.

Lemma contains_mid (t u w : gostr) : contains t (u ++ t ++ w) = true.
Proof.
  induction u as [|c u IH]; simpl.
  - destruct t; [destruct w; reflexivity|]. simpl.
    rewrite Ascii.eqb_refl, is_prefix_app; reflexivity.
  - rewrite IH, orb_true_r; reflexivity.
Qed.

Lemma contains_app_l (t x y : gostr) : contains t x = true -> contains t (x ++ y) = true.
Proof.
  intros H; destruct (contains_inv _ _ H) as [u [w ->]].
  rewrite <- !app_assoc. apply contains_mid.
Qed.

Lemma contains_app_r (t x y : gostr) : contains t y = true -> contains t (x ++ y) = true.
Proof.
  intros H; destruct (contains_inv _ _ H) as [u [w ->]].
  rewrite app_assoc. apply contains_mid.
Qed.

(** A block of bytes foreign to [t] cannot be part of an occurrence of [t]. *)
Lemma contains_free (t v z : gostr) :
  t <> [] -> (forall a, In a v -> ~ In a t) ->
  contains t (v ++ z) = true -> contains t z = true.
Proof.
  intros Ht Hv; induction v as [|a v IH]; simpl; auto; intros H.
  apply orb_prop in H as [H|H].
  - exfalso. apply (Hv a (or_introl eq_refl)). exact (is_prefix_head _ _ _ Ht H).
  - apply IH; auto. intros b Hb; apply Hv; right; exact Hb.
Qed.

Lemma contains_split (t x v z : gostr) :
  t <> [] -> v <> [] -> (forall a, In a v -> ~ In a t) ->
  contains t (x ++ v ++ z) = true -> contains t x = true \/ contains t z = true.
Proof.
  intros Ht Hv Hf; induction x as [|c x IH]; simpl; intros H.
  - right; exact (contains_free _ _ _ Ht Hf H).
  - apply orb_prop in H as [H|H].
    + destruct v as [|a v]; [congruence|].
      destruct (is_prefix_split t (c :: x) (v ++ z) a H) as [H'|H'].
      * left; rewrite H'; reflexivity.
      * exfalso; exact (Hf a (or_introl eq_refl) H').
    + destruct (IH H) as [H'|H']; [left | right]; auto.
      rewrite H', orb_true_r; reflexivity.
Qed.

(** * The one-pass substitution *)

Section Subst.
Variable ps : kvmap.
Hypothesis tok_ne : forall p, In p ps -> fst p <> [].

Lemma find_token_some s p :
  find_token ps s = Some p -> In p ps /\ is_prefix (fst p) s = true.
Proof.
  clear tok_ne. induction ps as [|q qs IH]; simpl; [discriminate|].
  destruct (is_prefix (fst q) s) eqn:E; intros H.
  - injection H as <-; auto.
  - destruct (IH H); auto.
Qed.

Lemma find_token_complete s p :
  In p ps -> is_prefix (fst p) s = true -> exists q, find_token ps s = Some q.
Proof.
  clear tok_ne. induction ps as [|q qs IH]; simpl; [contradiction|].
  intros [<-|Hin] Hp.
  - rewrite Hp; eauto.
  - destruct (is_prefix (fst q) s); eauto.
Qed.

Lemma find_token_nil : find_token ps [] = None.
Proof.
  destruct (find_token ps []) as [p|] eqn:E; [|reflexivity].
  destruct (find_token_some _ _ E) as [Hin Hp].
  rewrite (is_prefix_nil_r _ (tok_ne _ Hin)) in Hp; discriminate.
Qed.

Lemma subst_all_go_skip k s : subst_all_go ps k s = subst_all ps (skipn k s).
Proof.
  revert k; induction s as [|c s IH]; intros [|k]; simpl; auto.
Qed.

Lemma subst_all_nil : subst_all ps [] = [].
Proof. reflexivity. Qed.

Lemma subst_all_none c s :
  find_token ps (c :: s) = None -> subst_all ps (c :: s) = c :: subst_all ps s.
Proof. intros H; unfold subst_all; simpl; rewrite H; reflexivity. Qed.

Lemma subst_all_hit t v w :
  find_token ps (t ++ w) = Some (t, v) -> subst_all ps (t ++ w) = v ++ subst_all ps w.
Proof.
  intros H. destruct (find_token_some _ _ H) as [Hin _].
  pose proof (tok_ne _ Hin) as Ht; simpl in Ht.
  destruct t as [|a t]; [congruence|].
  unfold subst_all; simpl in H |- *; rewrite H; simpl.
  rewrite subst_all_go_skip, skipn_app_length; reflexivity.
Qed.

(** Bytes where no token starts are copied. *)
Lemma subst_all_copy u w :
  (forall u1 u2, u = u1 ++ u2 -> u2 <> [] -> find_token ps (u2 ++ w) = None) ->
  subst_all ps (u ++ w) = u ++ subst_all ps w.
Proof.
  induction u as [|c u IH]; intros H; [reflexivity|].
  simpl; rewrite subst_all_none.
  - rewrite IH; [reflexivity|]. intros u1 u2 -> Hu2.
    apply (H (c :: u1) u2); auto.
  - apply (H [] (c :: u)); [reflexivity | discriminate].
Qed.

(** Either no token occurs in [s], or [s] splits at its first token. *)
Lemma subst_all_struct s :
  ((forall s1 s2, s = s1 ++ s2 -> find_token ps s2 = None) /\ subst_all ps s = s)
  \/ (exists x t v y, s = x ++ t ++ y /\ In (t, v) ps
      /\ (forall x1 x2, x = x1 ++ x2 -> x2 <> [] -> find_token ps (x2 ++ t ++ y) = None)
      /\ subst_all ps s = x ++ v ++ subst_all ps y).
Proof.
  induction s as [|c s IH].
  - left; split; [|reflexivity].
    intros s1 s2 H. symmetry in H; apply app_eq_nil in H as [_ ->].
    apply find_token_nil.
  - destruct (find_token ps (c :: s)) as [[t v]|] eqn:E.
    + right. destruct (find_token_some _ _ E) as [Hin Hp]; simpl in Hp.
      destruct (is_prefix_inv _ _ Hp) as [y Hy].
      exists [], t, v, y. repeat split; auto.
      * intros x1 x2 Hx Hx2. symmetry in Hx; apply app_eq_nil in Hx as [_ ->]; congruence.
      * rewrite Hy in E |- *. apply subst_all_hit; exact E.
    + rewrite subst_all_none by exact E.
      destruct IH as [[Hn Hs]|[x [t [v [y [Hs [Hin [Hx Hr]]]]]]]].
      * left; split; [|rewrite Hs; reflexivity].
        intros [|c' s1] s2 Hs12; simpl in Hs12.
        -- rewrite <- Hs12; exact E.
        -- injection Hs12 as _ Hs12. exact (Hn _ _ Hs12).
      * right; exists (c :: x), t, v, y. repeat split; auto.
        -- rewrite Hs; reflexivity.
        -- intros [|c' x1] x2 Hx12 Hx2; simpl in Hx12.
           ++ rewrite <- Hx12. simpl. rewrite <- Hs; exact E.
           ++ injection Hx12 as _ Hx12. exact (Hx _ _ Hx12 Hx2).
        -- rewrite Hr; reflexivity.
Qed.
End Subst.

(** Go's single-string replacer is the one-pass substitution of one pair. *)
Lemma replace_go_subst r k s :
  replace_go r k s = subst_all_go [(r_old r, r_new r)] k s.
Proof.
  revert k; induction s as [|c s IH]; intros [|k]; simpl; auto.
  destruct (is_prefix (r_old r) (c :: s)); simpl; rewrite IH; reflexivity.
Qed.

Lemma Replace_subst t v s : Replace (mkReplacer t v) s = subst_all [(t, v)] s.
Proof. apply replace_go_subst. Qed.

Lemma subst_all_empty (s : gostr) : subst_all [] s = s.
Proof. induction s as [|c s IH]; [reflexivity|]. unfold subst_all in *; simpl; rewrite IH; reflexivity. Qed.

Lemma kv_eq_dec (p q : gostr * gostr) : {p = q} + {p <> q}.
Proof. decide equality; apply list_eq_dec, ascii_dec. Defined.

(** A byte foreign to every token starts no token. *)
Lemma find_token_foreign (ps : kvmap) (a : ascii) (z : gostr) :
  (forall q, In q ps -> fst q <> [] /\ ~ In a (fst q)) -> find_token ps (a :: z) = None.
Proof.
  intros H. destruct (find_token ps (a :: z)) as [q|] eqn:E; [|reflexivity].
  destruct (find_token_some _ _ _ E) as [Hin Hp].
  destruct (H q Hin) as [Hne Hn]. exfalso; exact (Hn (is_prefix_head _ _ _ Hne Hp)).
Qed.

(** Pairwise non-overlap of the tokens of a list, position by position. *)
Fixpoint pw (ps : kvmap) : Prop :=
  match ps with
  | [] => True
  | p :: ps' => (forall q, In q ps' -> nonoverlapping (fst p) (fst q)) /\ pw ps'
  end.

Lemma pw_of_distinct (ps : kvmap) :
  NoDup ps -> (forall p q, In p ps -> In q ps -> p <> q -> nonoverlapping (fst p) (fst q)) ->
  pw ps.
Proof.
  induction ps as [|p ps IH]; simpl; auto. intros Hnd H. inversion Hnd; subst. split.
  - intros q Hq. apply H; auto. intros ->; contradiction.
  - apply IH; auto.
Qed.

(** Under non-overlap, the token found at a position is the only one there. *)
Lemma find_token_unique (ps : kvmap) (p0 : gostr * gostr) (s : gostr) :
  (forall p, In p ps -> fst p <> []) -> pw ps -> In p0 ps ->
  is_prefix (fst p0) s = true -> find_token ps s = Some p0.
Proof.
  induction ps as [|x xs IH]; simpl; [contradiction|]. intros Hne [Hx Hpw] Hin Hp.
  destruct (kv_eq_dec x p0) as [<-|Hneq]; [rewrite Hp; reflexivity|].
  destruct Hin as [Heq|Hin]; [contradiction|].
  destruct (is_prefix_inv _ _ Hp) as [w ->].
  rewrite (proj2 (Hx p0 Hin) [] (fst p0) w eq_refl (Hne p0 (or_intror Hin))).
  apply IH; auto.
Qed.

Section Compose.
Variables (tp vp : gostr) (ps : kvmap).
Hypothesis Htp : tp <> [].
Hypothesis Hvp : vp <> [].
Hypothesis Hps : forall q, In q ps -> fst q <> [].
Hypothesis Hfree : forall a q, In a vp -> In q ps -> ~ In a (fst q).
Hypothesis Hov : forall q, In q ps -> nonoverlapping tp (fst q).
Hypothesis Hpw : pw ps.

Let tok1 : forall q, In q [(tp, vp)] -> fst q <> [].
Proof. intros q [<-|[]]; exact Htp. Qed.

Let tok2 : forall q, In q ((tp, vp) :: ps) -> fst q <> [].
Proof. intros q [<-|Hq]; [exact Htp | exact (Hps q Hq)]. Qed.

(** Replacing [tp] first and then the tokens of [ps] is the one-pass
    substitution of all of them. *)
Lemma subst_all_compose s :
  subst_all ps (subst_all [(tp, vp)] s) = subst_all ((tp, vp) :: ps) s.
Proof.
  remember (length s) as n eqn:Hn. revert s Hn.
  induction n as [n IH] using lt_wf_ind. intros s ->.
  destruct s as [|c s']; [reflexivity|].
  destruct (is_prefix tp (c :: s')) eqn:E.
  - (* the line starts with [tp] *)
    destruct (is_prefix_inv _ _ E) as [y Hy]. rewrite Hy in *.
    rewrite (subst_all_hit [(tp, vp)] tok1 tp vp y)
      by (simpl; rewrite is_prefix_app; reflexivity).
    rewrite (subst_all_copy ps vp).
    + rewrite (IH (length y)) by (reflexivity || (rewrite length_app; destruct tp; [congruence | simpl; lia])).
      symmetry; apply (subst_all_hit _ tok2).
      simpl; rewrite is_prefix_app; reflexivity.
    + intros u1 [|a u2] Hu Hu2; [congruence|]. apply find_token_foreign.
      intros q Hq; split; [exact (Hps q Hq)|]. apply Hfree; auto.
      rewrite Hu; apply in_or_app; right; left; reflexivity.
  - destruct (find_token ps (c :: s')) as [[tq vq]|] eqn:F.
    + (* a token of [ps] starts the line *)
      destruct (find_token_some _ _ _ F) as [Hin Hp]; simpl in Hp.
      destruct (is_prefix_inv _ _ Hp) as [y Hy]. rewrite Hy in *.
      pose proof (Hps _ Hin) as Htq; simpl in Htq.
      rewrite (subst_all_copy [(tp, vp)] tq y).
      * rewrite (subst_all_hit ps Hps tq vq).
        -- rewrite (IH (length y)) by (reflexivity || (rewrite length_app; destruct tq; [congruence | simpl; lia])).
           symmetry; apply (subst_all_hit _ tok2). simpl; rewrite E; exact F.
        -- apply find_token_unique; auto. apply is_prefix_app.
      * intros u1 u2 Hu Hu2; simpl.
        rewrite (proj2 (Hov _ Hin) u1 u2 y Hu Hu2); reflexivity.
    + (* no token starts the line: its first byte is copied *)
      rewrite (subst_all_none [(tp, vp)]) by (simpl; rewrite E; reflexivity).
      rewrite subst_all_none.
      * rewrite (IH (length s')) by (reflexivity || (simpl; lia)).
        symmetry; apply subst_all_none. simpl; rewrite E; exact F.
      * destruct (subst_all_struct [(tp, vp)] tok1 s')
          as [[_ Hs]|[x [t [v [y [Hs [Hin [_ Hr]]]]]]]].
        -- rewrite Hs; exact F.
        -- destruct Hin as [Heq|[]]; injection Heq as <- <-.
           rewrite Hr. destruct vp as [|a vp'] eqn:Evp; [congruence|].
           destruct (find_token ps (c :: x ++ (a :: vp') ++ subst_all [(tp, a :: vp')] y))
             as [q|] eqn:G; [|exact G].
           destruct (find_token_some _ _ _ G) as [Hq Hpq].
           change (c :: x ++ (a :: vp') ++ subst_all [(tp, a :: vp')] y)
             with ((c :: x) ++ a :: (vp' ++ subst_all [(tp, a :: vp')] y)) in Hpq.
           destruct (is_prefix_split _ _ _ _ Hpq) as [H1|H1].
           ++ apply (is_prefix_ext _ _ (tp ++ y)) in H1.
              simpl in H1; rewrite <- Hs in H1.
              destruct (find_token_complete _ _ _ Hq H1) as [r Hr'].
              rewrite F in Hr'; discriminate.
           ++ exfalso; apply (Hfree a q); auto. left; reflexivity.
Qed.
End Compose.

Definition fold_subst (ps : kvmap) (s : gostr) : gostr :=
  fold_left (fun s p => subst_all [p] s) ps s.

Lemma apply_setup_fold (it : map_iter) (m : kvmap) (line : gostr) :
  apply_replacers (setupReplacers it m) line = fold_subst (kv_token_pairs (it m)) line.
Proof.
  unfold apply_replacers, setupReplacers, fold_subst, kv_token_pairs.
  revert line; induction (it m) as [|p l IH]; intros line; simpl; [reflexivity|].
  rewrite Replace_subst; apply IH.
Qed.

Lemma fold_subst_refines (ps : kvmap) (s : gostr) :
  (forall q, In q ps -> fst q <> [] /\ snd q <> []) ->
  (forall p q a, In p ps -> In q ps -> In a (snd p) -> ~ In a (fst q)) ->
  pw ps -> fold_subst ps s = subst_all ps s.
Proof.
  revert s; induction ps as [|[tp vp] ps IH]; intros s Hne Hfree Hpw.
  - symmetry; apply subst_all_empty.
  - destruct Hpw as [Hov Hpw]. unfold fold_subst; simpl; fold (fold_subst ps).
    rewrite IH; auto.
    + apply subst_all_compose; auto.
      * exact (proj1 (Hne _ (or_introl eq_refl))).
      * exact (proj2 (Hne _ (or_introl eq_refl))).
      * intros q Hq; exact (proj1 (Hne q (or_intror Hq))).
      * intros a q Ha Hq. apply (Hfree (tp, vp)); simpl; auto.
    + intros q Hq; apply Hne; right; exact Hq.
    + intros p q a Hp Hq; apply Hfree; right; auto.
Qed.

Lemma find_token_perm (ps1 ps2 : kvmap) (s : gostr) :
  Permutation ps1 ps2 -> (forall p, In p ps1 -> fst p <> []) -> pw ps1 -> pw ps2 ->
  find_token ps1 s = find_token ps2 s.
Proof.
  intros HP Hne H1 H2.
  assert (Hne2 : forall p, In p ps2 -> fst p <> [])
    by (intros p Hp; apply Hne; exact (Permutation_in _ (Permutation_sym HP) Hp)).
  destruct (find_token ps1 s) as [p|] eqn:E1.
  - destruct (find_token_some _ _ _ E1) as [Hin Hp].
    symmetry; apply find_token_unique; auto. exact (Permutation_in _ HP Hin).
  - destruct (find_token ps2 s) as [p|] eqn:E2; [|reflexivity].
    destruct (find_token_some _ _ _ E2) as [Hin Hp].
    rewrite (find_token_unique ps1 p s Hne H1) in E1; [discriminate | | exact Hp].
    exact (Permutation_in _ (Permutation_sym HP) Hin).
Qed.

(** Under non-overlap, the order of the pairs does not matter. *)
Lemma subst_all_perm (ps1 ps2 : kvmap) (s : gostr) :
  Permutation ps1 ps2 -> (forall p, In p ps1 -> fst p <> []) -> pw ps1 -> pw ps2 ->
  subst_all ps1 s = subst_all ps2 s.
Proof.
  intros HP Hne H1 H2. unfold subst_all. generalize 0.
  induction s as [|c s IH]; intros [|k]; simpl; auto.
  rewrite (find_token_perm ps1 ps2 (c :: s) HP Hne H1 H2).
  destruct (find_token ps2 (c :: s)); rewrite IH; reflexivity.
Qed.

(** * The key-value map *)

Lemma in_map_fst_filter (f : gostr * gostr -> bool) (m : kvmap) (k : gostr) :
  In k (map fst (filter f m)) -> In k (map fst m).
Proof.
  intros H. apply in_map_iff in H as [p [<- Hp]]. apply filter_In in Hp as [Hp _].
  apply in_map; exact Hp.
Qed.

Lemma NoDup_fst_filter (f : gostr * gostr -> bool) (m : kvmap) :
  NoDup (map fst m) -> NoDup (map fst (filter f m)).
Proof.
  induction m as [|p m IH]; simpl; intros H; [constructor|].
  inversion H; subst. destruct (f p); simpl; auto.
  constructor; auto. intros Hin; apply in_map_fst_filter in Hin; contradiction.
Qed.

Lemma kv_insert_NoDup (k v : gostr) (m : kvmap) :
  NoDup (map fst m) -> NoDup (map fst (kv_insert k v m)).
Proof.
  intros H. unfold kv_insert; simpl. constructor; [|apply NoDup_fst_filter; exact H].
  intros Hin. apply in_map_iff in Hin as [p [Hp Hin]]. apply filter_In in Hin as [_ Hf].
  revert Hf; destruct (list_eq_dec _ _ _); intros Hf; [discriminate | contradiction].
Qed.

Lemma kv_insert_in (k v : gostr) (m : kvmap) (p : gostr * gostr) :
  In p (kv_insert k v m) -> p = (k, v) \/ In p m.
Proof.
  unfold kv_insert; simpl. intros [<-|Hp]; [left; reflexivity|].
  apply filter_In in Hp as [Hp _]; right; exact Hp.
Qed.

Lemma kv_insert_keys (k v : gostr) (m : kvmap) (k' : gostr) :
  k' = k \/ In k' (map fst m) -> In k' (map fst (kv_insert k v m)).
Proof.
  unfold kv_insert; simpl. intros [->|Hk]; [left; reflexivity|].
  destruct (list_eq_dec ascii_dec k' k) as [->|Hne]; [left; reflexivity|]. right.
  apply in_map_iff in Hk as [p [<- Hp]]. apply in_map, filter_In; split; auto.
  cbv beta; destruct (list_eq_dec _ _ _); [contradiction | reflexivity].
Qed.

Lemma loadKeyValues_go_props (env : environ) (K ks : list gostr) (m0 m : kvmap) :
  loadKeyValues_go env ks m0 = inr m ->
  (forall k, In k ks -> In k K) ->
  NoDup (map fst m0) ->
  (forall k v, In (k, v) m0 -> In k K /\ v = getenv env k /\ v <> []) ->
  NoDup (map fst m)
  /\ (forall k v, In (k, v) m -> In k K /\ v = getenv env k /\ v <> [])
  /\ (forall k, In k ks \/ In k (map fst m0) -> In k (map fst m)).
Proof.
  revert m0; induction ks as [|key ks IH]; intros m0 H HK Hnd Hin; simpl in H.
  - injection H as <-. split; [exact Hnd|]. split; [exact Hin|].
    intros k [[]|Hk]; exact Hk.
  - destruct (getenv env key) as [|a value] eqn:Ev; [discriminate|].
    destruct (IH _ H) as [H1 [H2 H3]].
    + intros k Hk; apply HK; right; exact Hk.
    + apply kv_insert_NoDup; exact Hnd.
    + intros k v Hkv. apply kv_insert_in in Hkv as [Heq|Hkv].
      * injection Heq as -> ->. repeat split; [apply HK; left; reflexivity | | discriminate].
        rewrite Ev; reflexivity.
      * apply Hin; exact Hkv.
    + split; [exact H1|]. split; [exact H2|].
      intros k [[<-|Hk]|Hk]; apply H3.
      * right; apply kv_insert_keys; left; reflexivity.
      * left; exact Hk.
      * right; apply kv_insert_keys; right; exact Hk.
Qed.

Lemma loadKeyValues_props (env : environ) (ks : list gostr) (m : kvmap) :
  loadKeyValues env ks = inr m ->
  NoDup (map fst m)
  /\ (forall k v, In (k, v) m -> In k ks /\ v = getenv env k /\ v <> [])
  /\ (forall k, In k ks -> In k (map fst m)).
Proof.
  intros H. destruct (loadKeyValues_go_props env ks ks [] m H) as [H1 [H2 H3]]; auto.
  - constructor.
  - intros k v [].
Qed.

Lemma token_ne (k : gostr) : token k <> [].
Proof. unfold token; simpl; discriminate. Qed.

Lemma token_inj (k1 k2 : gostr) : token k1 = token k2 -> k1 = k2.
Proof. unfold token; simpl; intros H; inversion H; reflexivity. Qed.

Lemma NoDup_map_inj {A B} (f : A -> B) (l : list A) :
  (forall x y, f x = f y -> x = y) -> NoDup l -> NoDup (map f l).
Proof.
  intros Hf; induction l as [|x l IH]; simpl; intros H; [constructor|].
  inversion H; subst. constructor; auto.
  intros Hin; apply in_map_iff in Hin as [y [Hy Hin]].
  apply Hf in Hy; subst; contradiction.
Qed.

Lemma in_token_pairs (l : kvmap) (q : gostr * gostr) :
  In q (kv_token_pairs l) -> exists p, q = (token (fst p), snd p) /\ In p l.
Proof.
  unfold kv_token_pairs; intros H. apply in_map_iff in H as [p [<- Hp]]. eauto.
Qed.

(** The token/value pairs of any iteration order of the resolved map. *)
Lemma token_pairs_basic (env : environ) (ks : list gostr) (m l : kvmap) :
  loadKeyValues env ks = inr m -> Permutation l m -> values_token_free env ks ->
  (forall q, In q (kv_token_pairs l) -> fst q <> [] /\ snd q <> [])
  /\ (forall p q a, In p (kv_token_pairs l) -> In q (kv_token_pairs l) ->
        In a (snd p) -> ~ In a (fst q)).
Proof.
  intros Hm HP Hfree. destruct (loadKeyValues_props _ _ _ Hm) as [_ [Hkv _]].
  assert (Hl : forall p, In p l -> In (fst p) ks /\ snd p = getenv env (fst p) /\ snd p <> [])
    by (intros [k v] Hp; apply Hkv; exact (Permutation_in _ HP Hp)).
  split.
  - intros q Hq. apply in_token_pairs in Hq as [p [-> Hp]]. simpl.
    split; [apply token_ne | apply (Hl p Hp)].
  - intros p' q' a Hp' Hq' Ha.
    apply in_token_pairs in Hp' as [p [-> Hp]]. apply in_token_pairs in Hq' as [q [-> Hq]].
    simpl in *. destruct (Hl p Hp) as [Hpk [Hpv _]]. destruct (Hl q Hq) as [Hqk _].
    rewrite Hpv in Ha. exact (Hfree _ _ _ Hpk Hqk Ha).
Qed.

Lemma token_pairs_pw (env : environ) (ks : list gostr) (m l : kvmap) :
  loadKeyValues env ks = inr m -> Permutation l m -> keys_nonoverlapping ks ->
  pw (kv_token_pairs l).
Proof.
  intros Hm HP Hov. destruct (loadKeyValues_props _ _ _ Hm) as [Hnd [Hkv _]].
  assert (Hl : forall p, In p l -> In (fst p) ks /\ snd p = getenv env (fst p) /\ snd p <> [])
    by (intros [k v] Hp; apply Hkv; exact (Permutation_in _ HP Hp)).
  apply pw_of_distinct.
  - apply NoDup_map_inj.
    + intros [k1 v1] [k2 v2] H; simpl in H. unfold token in H; simpl in H.
      inversion H; subst; reflexivity.
    + apply (Permutation_NoDup (Permutation_sym HP)). exact (NoDup_map_inv _ _ Hnd).
  - intros p' q' Hp' Hq' Hne.
    apply in_token_pairs in Hp' as [p [-> Hp]]. apply in_token_pairs in Hq' as [q [-> Hq]].
    simpl. destruct (Hl p Hp) as [Hpk [Hpv _]]. destruct (Hl q Hq) as [Hqk [Hqv _]].
    apply Hov; auto. intros Heq. apply Hne. rewrite Hpv, Hqv, Heq; reflexivity.
Qed.

(** The replacers built by the program do what the spec describes. *)
Lemma apply_setup_spec (it : map_iter) (env : environ) (ks : list gostr) (m : kvmap)
  (line : gostr) :
  valid_iter it -> loadKeyValues env ks = inr m ->
  keys_nonoverlapping ks -> values_token_free env ks ->
  apply_replacers (setupReplacers it m) line = spec_subst m line.
Proof.
  intros Hit Hm Hov Hfree.
  destruct (token_pairs_basic env ks m (it m) Hm (Hit m) Hfree) as [Hne Hf].
  rewrite apply_setup_fold, fold_subst_refines; auto.
  - apply subst_all_perm.
    + apply Permutation_map, Hit.
    + intros q Hq; apply Hne; exact Hq.
    + exact (token_pairs_pw env ks m (it m) Hm (Hit m) Hov).
    + exact (token_pairs_pw env ks m m Hm (Permutation_refl m) Hov).
  - exact (token_pairs_pw env ks m (it m) Hm (Hit m) Hov).
Qed.

(** * Tokens left after substitution *)

Lemma contains_after_own (t v s : gostr) :
  t <> [] -> v <> [] -> (forall a, In a v -> ~ In a t) ->
  contains t (subst_all [(t, v)] s) = false.
Proof.
  intros Ht Hv Hf.
  assert (tok : forall q, In q [(t, v)] -> fst q <> []) by (intros q [<-|[]]; exact Ht).
  remember (length s) as n eqn:Hn. revert s Hn.
  induction n as [n IH] using lt_wf_ind. intros s ->.
  destruct (subst_all_struct [(t, v)] tok s)
    as [[Hn Hs]|[x [t' [v' [y [Hs [Hin [Hx Hr]]]]]]]].
  - rewrite Hs. destruct (contains t s) eqn:C; [|reflexivity].
    destruct (contains_inv _ _ C) as [u [w Hw]].
    specialize (Hn u (t ++ w) Hw). simpl in Hn; rewrite is_prefix_app in Hn; discriminate.
  - destruct Hin as [Heq|[]]; injection Heq as <- <-. rewrite Hr.
    destruct (contains t (x ++ v ++ subst_all [(t, v)] y)) eqn:C; [|reflexivity].
    destruct (contains_split _ _ _ _ Ht Hv Hf C) as [C'|C'].
    + destruct (contains_inv _ _ C') as [u [w ->]].
      assert (Htw : t ++ w <> []) by (destruct t; [congruence | discriminate]).
      specialize (Hx u (t ++ w) eq_refl Htw). simpl in Hx.
      rewrite <- app_assoc, is_prefix_app in Hx; discriminate.
    + rewrite (IH (length y)) in C'; [discriminate | | reflexivity].
      rewrite Hs, !length_app. destruct t; [congruence | simpl; lia].
Qed.

Lemma contains_after_other (t tq vq w : gostr) :
  t <> [] -> tq <> [] -> vq <> [] -> (forall a, In a vq -> ~ In a t) ->
  contains t w = false -> contains t (subst_all [(tq, vq)] w) = false.
Proof.
  intros Ht Htq Hv Hf.
  assert (tok : forall q, In q [(tq, vq)] -> fst q <> []) by (intros q [<-|[]]; exact Htq).
  remember (length w) as n eqn:Hn. revert w Hn.
  induction n as [n IH] using lt_wf_ind. intros w -> Hw.
  destruct (subst_all_struct [(tq, vq)] tok w)
    as [[_ Hs]|[x [t' [v' [y [Hs [Hin [_ Hr]]]]]]]].
  - rewrite Hs; exact Hw.
  - destruct Hin as [Heq|[]]; injection Heq as <- <-. rewrite Hr.
    destruct (contains t (x ++ vq ++ subst_all [(tq, vq)] y)) eqn:C; [|reflexivity].
    destruct (contains_split _ _ _ _ Ht Hv Hf C) as [C'|C'].
    + rewrite Hs, (contains_app_l _ _ _ C') in Hw; discriminate.
    + rewrite (IH (length y)) in C'; [discriminate | | reflexivity |].
      * rewrite Hs, !length_app. destruct tq; [congruence | simpl; lia].
      * destruct (contains t y) eqn:Cy; [|reflexivity].
        rewrite Hs, (contains_app_r t x _ (contains_app_r t tq y Cy)) in Hw; discriminate.
Qed.

Lemma contains_fold_other (t : gostr) (ps : kvmap) (s : gostr) :
  t <> [] ->
  (forall q, In q ps -> fst q <> [] /\ snd q <> [] /\ forall a, In a (snd q) -> ~ In a t) ->
  contains t s = false -> contains t (fold_subst ps s) = false.
Proof.
  intros Ht; revert s; induction ps as [|[tq vq] ps IH]; intros s Hq Hs; [exact Hs|].
  unfold fold_subst; simpl; fold (fold_subst ps). apply IH.
  - intros q Hin; apply Hq; right; exact Hin.
  - destruct (Hq _ (or_introl eq_refl)) as [H1 [H2 H3]].
    apply contains_after_other; auto.
Qed.

Lemma contains_fold (ps : kvmap) (t v s : gostr) :
  In (t, v) ps ->
  (forall q, In q ps -> fst q <> [] /\ snd q <> []) ->
  (forall p q a, In p ps -> In q ps -> In a (snd p) -> ~ In a (fst q)) ->
  contains t (fold_subst ps s) = false.
Proof.
  revert s; induction ps as [|[tq vq] ps IH]; intros s Hin Hne Hf; [contradiction|].
  unfold fold_subst; simpl; fold (fold_subst ps).
  destruct (Hne _ (or_introl eq_refl)) as [Htq Hvq]; simpl in Htq, Hvq.
  destruct Hin as [Heq|Hin].
  - injection Heq as -> ->. apply contains_fold_other; auto.
    + intros q Hq. destruct (Hne q (or_intror Hq)) as [H1 H2]. repeat split; auto.
      intros a Ha. apply (Hf q (t, v)); simpl; auto.
    + apply contains_after_own; auto. intros a Ha; apply (Hf (t, v) (t, v)); simpl; auto.
  - apply IH; auto.
    + intros q Hq; apply Hne; right; exact Hq.
    + intros p q a Hp Hq; apply Hf; right; auto.
Qed.

(** * Runs of the program *)

Lemma scan_loop_body (rs : list replacer) (ls : list gostr) (buf : gostr) :
  scan_loop rs ls buf = buf ++ body rs ls.
Proof.
  revert buf; induction ls as [|l ls IH]; intros buf; simpl; [rewrite app_nil_r; reflexivity|].
  rewrite IH. unfold emit_line. destruct (is_directive l); simpl; [reflexivity|].
  rewrite app_assoc; reflexivity.
Qed.

Lemma main_ok (it : map_iter) (env : environ) (F : fs) (fl : flags) (tr0 : list event)
  (m : kvmap) (p d0 d : gostr) (ls : list gostr) :
  loadKeyValues env (split_comma (keyNames fl)) = inr m -> paths fl = [p] ->
  stat F p = Some (File d0) -> stat F (templateFileName p) = Some (File d) ->
  scan_lines d = Some ls -> writable F (out_path fl p) = true ->
  main it env F fl tr0 =
    (tr0 ++ [EvStat p; EvOpen (templateFileName p);
             EvWriteFile (out_path fl p) (writeHeader fl [] ++ body (setupReplacers it m) ls)],
     Done tt).
Proof.
  intros Hm Hp Hs0 Hs Hd Hw. unfold main, run. rewrite Hm, Hp.
  unfold bind, isFile, emit, ret. rewrite Hs0.
  unfold substituteValues, openTemplateFile, bind, emit, ret. rewrite Hs.
  cbn [read_template]. rewrite Hd.
  unfold writeFile, out_path in *. destruct (output fl); rewrite Hw, scan_loop_body;
  unfold emit; rewrite <- !app_assoc; reflexivity.
Qed.

Lemma main_success_inv (it : map_iter) (env : environ) (F : fs) (fl : flags)
  (tr0 tr : list event) :
  main it env F fl tr0 = (tr, Done tt) ->
  exists m p d0 d ls,
    loadKeyValues env (split_comma (keyNames fl)) = inr m /\ paths fl = [p]
    /\ stat F p = Some (File d0) /\ stat F (templateFileName p) = Some (File d)
    /\ scan_lines d = Some ls /\ writable F (out_path fl p) = true
    /\ tr = tr0 ++ [EvStat p; EvOpen (templateFileName p);
                    EvWriteFile (out_path fl p) (writeHeader fl [] ++ body (setupReplacers it m) ls)].
Proof.
  intros H. pose proof H as H0. unfold main, run in H.
  destruct (loadKeyValues env (split_comma (keyNames fl))) as [e|m] eqn:Hm;
    [discriminate|].
  destruct (paths fl) as [|p [|q r]] eqn:Hp; try discriminate.
  unfold bind, isFile, emit, ret, fatal in H.
  destruct (stat F p) as [[|d0]|] eqn:Hs0; try discriminate.
  unfold substituteValues, openTemplateFile, bind, emit, ret, fatal in H.
  destruct (stat F (templateFileName p)) as [[|d]|] eqn:Hs; try discriminate.
  cbn [read_template] in H. destruct (scan_lines d) as [ls|] eqn:Hd; try discriminate.
  assert (Hw : writable F (out_path fl p) = true).
  { unfold writeFile, out_path in *. destruct (output fl);
    destruct (writable F _); [reflexivity | discriminate | reflexivity | discriminate]. }
  exists m, p, d0, d, ls. repeat split; auto.
  rewrite (main_ok it env F fl tr0 m p d0 d ls Hm Hp Hs0 Hs Hd Hw) in H0.
  injection H0 as H0. symmetry; exact H0.
Qed.

Lemma main_cases (it : map_iter) (env : environ) (F : fs) (fl : flags) (p : gostr) :
  paths fl = [p] ->
  (exists e, main it env F fl [] = ([], Exit e))
  \/ (exists e, main it env F fl [] = ([EvStat p], Exit e))
  \/ (exists e, main it env F fl [] = ([EvStat p; EvOpen (templateFileName p)], Exit e)
        /\ (stat F (templateFileName p) = None -> e = ErrTemplateNotFound (templateFileName p)))
  \/ (exists o b d, main it env F fl [] =
          ([EvStat p; EvOpen (templateFileName p); EvWriteFile o b], Done tt)
        /\ stat F (templateFileName p) = Some (File d)).
Proof.
  intros Hp. unfold main, run. rewrite Hp.
  destruct (loadKeyValues env (split_comma (keyNames fl))) as [e|m].
  { left; exists e; reflexivity. }
  unfold bind, isFile, emit, ret, fatal.
  destruct (stat F p) as [[|d0]|]; [right; left; eexists; reflexivity | | right; left; eexists; reflexivity].
  unfold substituteValues, openTemplateFile, bind, emit, ret, fatal.
  destruct (stat F (templateFileName p)) as [[|d]|] eqn:Hs.
  - right; right; left. eexists; split; [reflexivity | discriminate].
  - cbn [read_template]. destruct (scan_lines d) as [ls|].
    + unfold writeFile, emit, fatal. destruct (writable F _).
      * right; right; right. do 3 eexists; split; [reflexivity | reflexivity].
      * right; right; left. eexists; split; [reflexivity | discriminate].
    + right; right; left. eexists; split; [reflexivity | discriminate].
  - right; right; left. eexists; split; [reflexivity | reflexivity].
Qed.

Lemma loadKeyValues_go_ok (env : environ) (ks : list gostr) (m0 : kvmap) :
  Forall (fun k => getenv env k <> []) ks -> exists m, loadKeyValues_go env ks m0 = inr m.
Proof.
  revert m0; induction ks as [|k ks IH]; intros m0 H; simpl; [eauto|].
  inversion H; subst. destruct (getenv env k) eqn:E; [contradiction|]. apply IH; auto.
Qed.

Lemma loadKeyValues_go_first (env : environ) (pre post : list gostr) (k0 : gostr) (m0 : kvmap) :
  Forall (fun k => getenv env k <> []) pre -> getenv env k0 = [] ->
  loadKeyValues_go env (pre ++ k0 :: post) m0 = inl (ErrMissingEnv k0).
Proof.
  revert m0; induction pre as [|k pre IH]; intros m0 H H0; simpl.
  - rewrite H0; reflexivity.
  - inversion H; subst. destruct (getenv env k) eqn:E; [contradiction|]. apply IH; auto.
Qed.

Lemma loadKeyValues_go_missing (env : environ) (ks : list gostr) (k : gostr) (m0 : kvmap) :
  In k ks -> getenv env k = [] -> exists k', loadKeyValues_go env ks m0 = inl (ErrMissingEnv k').
Proof.
  revert m0; induction ks as [|k1 ks IH]; intros m0 Hin H; [contradiction|]. simpl.
  destruct (getenv env k1) eqn:E; [eauto|].
  destruct Hin as [<-|Hin]; [congruence | apply IH; auto].
Qed.

(** ** Soundness of the decision procedures used on concrete inputs *)

Lemma suffixes_in (a1 a2 : gostr) : a2 <> [] -> In a2 (suffixes (a1 ++ a2)).
Proof.
  intros Hne; induction a1 as [|c a1 IH]; simpl.
  - destruct a2; [congruence | left; reflexivity].
  - right; exact IH.
Qed.

Lemma no_overlap_b_sound (a b : gostr) : no_overlap_b a b = true -> no_overlap a b.
Proof.
  intros H a1 a2 w -> Hne. unfold no_overlap_b in H. rewrite forallb_forall in H.
  specialize (H a2 (suffixes_in a1 a2 Hne)).
  destruct (is_prefix b (a2 ++ w)) eqn:E; [|reflexivity].
  destruct (is_prefix_app_inv _ _ _ E) as [E'|E']; rewrite E' in H;
    [discriminate | rewrite orb_true_r in H; discriminate].
Qed.

Lemma keys_nonoverlapping_b_sound (ks : list gostr) :
  keys_nonoverlapping_b ks = true -> keys_nonoverlapping ks.
Proof.
  unfold keys_nonoverlapping_b; intros H k1 k2 H1 H2 Hne.
  rewrite forallb_forall in H. specialize (H k1 H1). rewrite forallb_forall in H.
  specialize (H k2 H2). destruct (list_eq_dec ascii_dec k1 k2); [contradiction|].
  apply andb_prop in H as [Ha Hb]. split; apply no_overlap_b_sound; assumption.
Qed.

Lemma values_token_free_b_sound (env : environ) (ks : list gostr) :
  values_token_free_b env ks = true -> values_token_free env ks.
Proof.
  unfold values_token_free_b; intros H k1 k2 a H1 H2 Ha Hin.
  rewrite forallb_forall in H. specialize (H k1 H1). rewrite forallb_forall in H.
  specialize (H k2 H2). rewrite forallb_forall in H. specialize (H a Ha).
  assert (Hex : existsb (Ascii.eqb a) (token k2) = true)
    by (apply existsb_exists; exists a; split; [exact Hin | apply Ascii.eqb_refl]).
  rewrite Hex in H; discriminate.
Qed.

Lemma not_in_of_existsb (a : ascii) (l : gostr) : existsb (Ascii.eqb a) l = false -> ~ In a l.
Proof.
  intros H Hin. assert (existsb (Ascii.eqb a) l = true)
    by (apply existsb_exists; exists a; split; [exact Hin | apply Ascii.eqb_refl]).
  congruence.
Qed.

(** ** Lines of a byte string *)

Lemma raw_lines_go_line (acc l r : gostr) :
  ~ In nl l -> raw_lines_go acc (l ++ nl :: r) = (rev acc ++ l) :: raw_lines_go [] r.
Proof.
  revert acc; induction l as [|c l IH]; intros acc Hl; simpl.
  - rewrite app_nil_r; reflexivity.
  - assert (Hc : Ascii.eqb c nl = false)
      by (apply Ascii.eqb_neq; intros ->; apply Hl; left; reflexivity).
    rewrite Hc, IH by (intros H; apply Hl; right; exact H).
    simpl; rewrite <- app_assoc; reflexivity.
Qed.

Lemma raw_lines_Sprintln (l r : gostr) :
  ~ In nl l -> raw_lines (Sprintln l ++ r) = l :: raw_lines r.
Proof.
  intros Hl. unfold raw_lines, Sprintln. rewrite <- app_assoc. simpl.
  apply raw_lines_go_line; exact Hl.
Qed.

Lemma writeHeader_lines (fl : flags) :
  writeHeader fl [] = Sprintln header_line1 ++ Sprintln (directive_line fl).
Proof.
  unfold writeHeader, directive_line, Sprintln. simpl.
  rewrite <- !app_assoc. reflexivity.
Qed.

Lemma header_line1_nl : ~ In nl header_line1.
Proof. apply not_in_of_existsb; vm_compute; reflexivity. Qed.

Lemma directive_line_nl (fl : flags) :
  ~ In nl (keyNames fl) -> ~ In nl (output fl) -> ~ In nl (directive_line fl).
Proof.
  intros Hk Ho. unfold directive_line.
  assert (H1 : ~ In nl (lit "//go:generate safekeeper --keys="))
    by (apply not_in_of_existsb; vm_compute; reflexivity).
  assert (H2 : ~ In nl (lit " --output=")) by (apply not_in_of_existsb; vm_compute; reflexivity).
  assert (H3 : ~ In nl (lit " $GOFILE")) by (apply not_in_of_existsb; vm_compute; reflexivity).
  rewrite !in_app_iff. intros [H|[H|[H|H]]]; try contradiction.
  destruct (output fl) as [|c o]; [contradiction|].
  apply in_app_iff in H as [H|H]; contradiction.
Qed.

(** The resolved map holds exactly the supplied keys with their values. *)
Lemma loadKeyValues_entries (env : environ) (ks : list gostr) (m : kvmap) :
  loadKeyValues env ks = inr m ->
  forall k v, In (k, v) m <-> In k ks /\ v = getenv env k.
Proof.
  intros Hm k v. destruct (loadKeyValues_props _ _ _ Hm) as [_ [Hkv Hall]]. split.
  - intros H. destruct (Hkv k v H) as [H1 [H2 _]]; auto.
  - intros [Hk ->]. pose proof (Hall k Hk) as Hk2. apply in_map_iff in Hk2 as [[k' v'] [Hk' Hin]].
    simpl in Hk'; subst k'. destruct (Hkv k v' Hin) as [_ [-> _]]. exact Hin.
Qed.

Lemma body_ext (rs1 rs2 : list replacer) (ls : list gostr) :
  (forall l, In l ls -> apply_replacers rs1 l = apply_replacers rs2 l) ->
  body rs1 ls = body rs2 ls.
Proof.
  induction ls as [|l ls IH]; intros H; simpl; [reflexivity|].
  unfold body in *. simpl. rewrite IH by (intros l' Hl'; apply H; right; exact Hl').
  unfold emit_line. rewrite H by (left; reflexivity). reflexivity.
Qed.

(** [main] depends on the iteration order only through the replacers. *)
Lemma main_iter_ext (it1 it2 : map_iter) (env : environ) (F : fs) (fl : flags)
  (tr0 : list event) :
  (forall m l, loadKeyValues env (split_comma (keyNames fl)) = inr m ->
     apply_replacers (setupReplacers it1 m) l = apply_replacers (setupReplacers it2 m) l) ->
  main it1 env F fl tr0 = main it2 env F fl tr0.
Proof.
  intros H. unfold main, run.
  destruct (loadKeyValues env (split_comma (keyNames fl))) as [e|m] eqn:Hm; [reflexivity|].
  destruct (paths fl) as [|p [|q r]]; try reflexivity.
  unfold bind, isFile, emit, ret, fatal.
  destruct (stat F p) as [[|d0]|]; try reflexivity.
  unfold substituteValues, openTemplateFile, bind, emit, ret, fatal.
  destruct (stat F (templateFileName p)) as [[|d]|]; try reflexivity.
  cbn [read_template]. destruct (scan_lines d) as [ls|]; [|reflexivity].
  rewrite !scan_loop_body, (body_ext (setupReplacers it1 m) (setupReplacers it2 m));
    [reflexivity|].
  intros l _; apply H; reflexivity.
Qed.

Lemma main_no_paths (it : map_iter) (env : environ) (F : fs) (fl : flags) :
  (forall p d, paths fl = [p] -> stat F p <> Some (File d)) ->
  exists e tr, main it env F fl [] = (tr, Exit e) /\ Forall (fun ev => exists q, ev = EvStat q) tr.
Proof.
  intros H. unfold main, run.
  destruct (loadKeyValues env (split_comma (keyNames fl))) as [e|m].
  { exists e, []; split; [reflexivity | constructor]. }
  destruct (paths fl) as [|p [|q r]] eqn:Hp;
    try solve [exists ErrUnsupportedInput, []; split; [reflexivity | constructor]].
  unfold bind, isFile, emit, ret, fatal.
  destruct (stat F p) as [[|d0]|] eqn:Hs.
  - exists ErrUnsupportedInput, [EvStat p]; split; [reflexivity | constructor; [eexists; reflexivity | constructor]].
  - exfalso; exact (H p d0 eq_refl Hs).
  - exists (ErrStat p), [EvStat p]; split; [reflexivity | constructor; [eexists; reflexivity | constructor]].
Qed.

Lemma body_ends_nl (rs : list replacer) (ls : list gostr) (pre0 : gostr) :
  exists pre, (pre0 ++ [nl]) ++ body rs ls = pre ++ [nl].
Proof.
  revert pre0; induction ls as [|l ls IH]; intros pre0.
  - exists pre0; apply app_nil_r.
  - unfold body; simpl; fold (body rs ls). unfold emit_line, Sprintln.
    destruct (is_directive l); simpl; [exact (IH pre0)|].
    destruct (IH (pre0 ++ [nl] ++ apply_replacers rs l)) as [pre Hpre].
    exists pre. rewrite <- Hpre, <- !app_assoc. reflexivity.
Qed.

(** * The properties of the specification *)

Module Claims.

(** C1 (counterexample): with [A=1] and the one-line template [x], the
    written file has three lines: the warning, the directive line, which
    ends in the [$GOFILE] argument, and the body line [x]. There is no
    separate source-reference line, and the body starts on line 3. *)
Lemma C1_counterexample :
  exists b, run_x = ([EvStat (lit "a.go"); EvOpen (lit "a.go.safekeeper");
                      EvWriteFile (lit "a.go") b], Done tt)
    /\ raw_lines b = [header_line1; lit "//go:generate safekeeper --keys=A $GOFILE"; lit "x"].
Proof.
  exists (Sprintln header_line1 ++ line "//go:generate safekeeper --keys=A $GOFILE" ++ line "x").
  split; vm_compute; reflexivity.
Qed.

(** C1 (amended): on success the written bytes are the warning line, the
    directive line [//go:generate safekeeper --keys=<keys>[ --output=<out>] $GOFILE]
    (the source file is referenced on that line), then the body; when the
    flags hold no newline, these are the first two lines of the output and
    the body's lines follow from line 3 on. *)
Theorem C1_header_two_lines (it : map_iter) (env : environ) (F : fs) (fl : flags)
  (tr : list event) :
  main it env F fl [] = (tr, Done tt) ->
  ~ In nl (keyNames fl) -> ~ In nl (output fl) ->
  exists p m ls,
    tr = [EvStat p; EvOpen (templateFileName p);
          EvWriteFile (out_path fl p)
            (Sprintln header_line1 ++ Sprintln (directive_line fl)
             ++ body (setupReplacers it m) ls)]
    /\ raw_lines (Sprintln header_line1 ++ Sprintln (directive_line fl)
                  ++ body (setupReplacers it m) ls)
       = header_line1 :: directive_line fl :: raw_lines (body (setupReplacers it m) ls).
Proof.
  intros H Hk Ho.
  destruct (main_success_inv it env F fl [] tr H)
    as [m [p [d0 [d [ls [_ [_ [_ [_ [_ [_ Htr]]]]]]]]]]].
  exists p, m, ls. split.
  - rewrite Htr, writeHeader_lines, <- app_assoc. reflexivity.
  - rewrite raw_lines_Sprintln by exact header_line1_nl.
    rewrite raw_lines_Sprintln by exact (directive_line_nl fl Hk Ho). reflexivity.
Qed.

Lemma C1_witness :
  run_x = (fst run_x, Done tt) /\
  exists p m ls,
    fst run_x = [EvStat p; EvOpen (templateFileName p);
          EvWriteFile (out_path (flags_for "A" "a.go") p)
            (Sprintln header_line1 ++ Sprintln (directive_line (flags_for "A" "a.go"))
             ++ body (setupReplacers iter_id m) ls)]
    /\ raw_lines (Sprintln header_line1 ++ Sprintln (directive_line (flags_for "A" "a.go"))
                  ++ body (setupReplacers iter_id m) ls)
       = header_line1 :: directive_line (flags_for "A" "a.go")
           :: raw_lines (body (setupReplacers iter_id m) ls).
Proof.
  split; [vm_compute; reflexivity|].
  apply (C1_header_two_lines iter_id env_a1 (fs_tpl (line "x")) (flags_for "A" "a.go")).
  - vm_compute; reflexivity.
  - apply not_in_of_existsb; vm_compute; reflexivity.
  - apply not_in_of_existsb; vm_compute; reflexivity.
Defined.

(** C2 (counterexample): with [A=ENV_A] every key resolves, the run
    succeeds, and the written file still contains the token [ENV_A]. *)
Lemma C2_counterexample :
  getenv env_self (lit "A") <> [] /\
  exists b, run_self = ([EvStat (lit "a.go"); EvOpen (lit "a.go.safekeeper");
                         EvWriteFile (lit "a.go") b], Done tt)
    /\ contains (token (lit "A")) b = true.
Proof.
  split; [vm_compute; discriminate|].
  exists (writeHeader (flags_for "A" "a.go") [] ++ line "ENV_A").
  split; vm_compute; reflexivity.
Qed.

(** C2 (amended): if every key resolves to a non-empty value, the input is
    one existing file whose template exists, has no line of 64 KiB or more
    and the output is writable, the run succeeds, whatever the values and
    the iteration order of the map. When moreover the order is a valid one
    and no resolved value shares a byte with a placeholder token, no
    transformed template line contains the token [ENV_<key>] of a resolved
    key. *)
Theorem C2_success_no_tokens (it : map_iter) (env : environ) (F : fs) (fl : flags)
  (p d0 d : gostr) (ls : list gostr) :
  Forall (fun k => getenv env k <> []) (split_comma (keyNames fl)) ->
  paths fl = [p] -> stat F p = Some (File d0) ->
  stat F (templateFileName p) = Some (File d) -> scan_lines d = Some ls ->
  writable F (out_path fl p) = true ->
  exists m,
    loadKeyValues env (split_comma (keyNames fl)) = inr m
    /\ main it env F fl [] =
         ([EvStat p; EvOpen (templateFileName p);
           EvWriteFile (out_path fl p) (writeHeader fl [] ++ body (setupReplacers it m) ls)],
          Done tt)
    /\ (valid_iter it -> values_token_free env (split_comma (keyNames fl)) ->
        forall l k, In l ls -> In k (split_comma (keyNames fl)) ->
          contains (token k) (apply_replacers (setupReplacers it m) l) = false).
Proof.
  intros Hall Hp Hs0 Hs Hd Hw.
  destruct (loadKeyValues_go_ok env (split_comma (keyNames fl)) [] Hall) as [m Hm].
  exists m. split; [exact Hm|]. split.
  - exact (main_ok it env F fl [] m p d0 d ls Hm Hp Hs0 Hs Hd Hw).
  - intros Hit Hfree l k _ Hk. rewrite apply_setup_fold.
    destruct (token_pairs_basic env _ m (it m) Hm (Hit m) Hfree) as [Hne Hf].
    apply (contains_fold _ _ (getenv env k)); [| exact Hne | exact Hf].
    unfold kv_token_pairs. apply (in_map (fun p => (token (fst p), snd p)) _ (k, getenv env k)).
    apply (Permutation_in _ (Permutation_sym (Hit m))).
    apply (proj2 (loadKeyValues_entries env _ m Hm k (getenv env k))). split; auto.
Qed.

Lemma C2_witness :
  exists m,
    loadKeyValues env_self (split_comma (lit "A")) = inr m
    /\ main iter_id env_self (fs_tpl (line "ENV_A")) (flags_for "A" "a.go") [] =
         ([EvStat (lit "a.go"); EvOpen (templateFileName (lit "a.go"));
           EvWriteFile (out_path (flags_for "A" "a.go") (lit "a.go"))
             (writeHeader (flags_for "A" "a.go") [] ++ body (setupReplacers iter_id m)
                [lit "ENV_A"])],
          Done tt)
    /\ (valid_iter iter_id -> values_token_free env_self (split_comma (lit "A")) ->
        forall l k, In l [lit "ENV_A"] -> In k (split_comma (lit "A")) ->
          contains (token k) (apply_replacers (setupReplacers iter_id m) l) = false).
Proof.
  apply (C2_success_no_tokens iter_id env_self (fs_tpl (line "ENV_A")) (flags_for "A" "a.go")
           (lit "a.go") (lit "package a") (line "ENV_A")).
  - vm_compute; repeat constructor; discriminate.
  - reflexivity.
  - vm_compute; reflexivity.
  - vm_compute; reflexivity.
  - vm_compute; reflexivity.
  - vm_compute; reflexivity.
Defined.

(** C3 (counterexample): the tokens [ENV_A] and [ENV_B] do not overlap,
    yet with [A=ENV_B], [B=x] and the template [ENV_A], an iteration order
    that replaces [A] first writes [x]: the value of [A] is rewritten by
    the replacer of [B], and the line is not the template line with each
    token replaced by its value ([ENV_B]). *)
Lemma C3_counterexample :
  valid_iter iter_rev /\ keys_nonoverlapping (split_comma (keyNames fl_ab)) /\
  exists m b,
    loadKeyValues env_chain (split_comma (keyNames fl_ab)) = inr m
    /\ run_chain iter_rev = ([EvStat (lit "a.go"); EvOpen (lit "a.go.safekeeper");
                              EvWriteFile (lit "a.go") b], Done tt)
    /\ b <> writeHeader fl_ab [] ++ spec_subst m (lit "ENV_A") ++ [nl].
Proof.
  split; [intros m; apply Permutation_sym, Permutation_rev|].
  split; [apply keys_nonoverlapping_b_sound; vm_compute; reflexivity|].
  exists [(lit "B", lit "x"); (lit "A", lit "ENV_B")], (writeHeader fl_ab [] ++ line "x").
  split; [vm_compute; reflexivity|]. split; [vm_compute; reflexivity|].
  vm_compute. discriminate.
Qed.

(** C3 (amended): when the tokens of distinct keys do not overlap and no
    resolved value shares a byte with a token, the written body is, for
    each line produced by the scanner from [<path>.safekeeper] (a trailing
    carriage return dropped) that is not a safekeeper directive, the line
    with every token [ENV_<key>] replaced by the value of [key] in one
    left-to-right pass, followed by one newline. The map holds exactly the
    supplied keys with their values. *)
Theorem C3_line_substitution (it : map_iter) (env : environ) (F : fs) (fl : flags)
  (tr : list event) :
  valid_iter it ->
  keys_nonoverlapping (split_comma (keyNames fl)) ->
  values_token_free env (split_comma (keyNames fl)) ->
  main it env F fl [] = (tr, Done tt) ->
  exists m p d ls,
    loadKeyValues env (split_comma (keyNames fl)) = inr m
    /\ (forall k v, In (k, v) m <-> In k (split_comma (keyNames fl)) /\ v = getenv env k)
    /\ paths fl = [p] /\ stat F (templateFileName p) = Some (File d) /\ scan_lines d = Some ls
    /\ tr = [EvStat p; EvOpen (templateFileName p);
             EvWriteFile (out_path fl p)
               (writeHeader fl []
                ++ flat_map (fun l => if is_directive l then [] else spec_subst m l ++ [nl]) ls)].
Proof.
  intros Hit Hov Hfree H.
  destruct (main_success_inv it env F fl [] tr H)
    as [m [p [d0 [d [ls [Hm [Hp [_ [Hs [Hd [_ Htr]]]]]]]]]]].
  exists m, p, d, ls. split; [exact Hm|]. split; [exact (loadKeyValues_entries env _ m Hm)|].
  do 3 (split; [assumption|]).
  assert (Hb : body (setupReplacers it m) ls
               = flat_map (fun l => if is_directive l then [] else spec_subst m l ++ [nl]) ls).
  { unfold body. apply flat_map_ext. intros l. unfold emit_line, Sprintln.
    rewrite (apply_setup_spec it env _ m l Hit Hm Hov Hfree). reflexivity. }
  rewrite Htr, Hb. reflexivity.
Qed.

Lemma C3_witness :
  exists tr, run_12 iter_rev = (tr, Done tt) /\
  exists m p d ls,
    loadKeyValues env_12 (split_comma (keyNames fl_12)) = inr m
    /\ (forall k v, In (k, v) m <-> In k (split_comma (keyNames fl_12)) /\ v = getenv env_12 k)
    /\ paths fl_12 = [p] /\ stat fs_12 (templateFileName p) = Some (File d) /\ scan_lines d = Some ls
    /\ tr = [EvStat p; EvOpen (templateFileName p);
             EvWriteFile (out_path fl_12 p)
               (writeHeader fl_12 []
                ++ flat_map (fun l => if is_directive l then [] else spec_subst m l ++ [nl]) ls)].
Proof.
  assert (H : run_12 iter_rev = (fst (run_12 iter_rev), Done tt)) by (vm_compute; reflexivity).
  exists (fst (run_12 iter_rev)). split; [exact H|].
  apply (C3_line_substitution iter_rev env_12 fs_12 fl_12).
  - intros m; apply Permutation_sym, Permutation_rev.
  - apply keys_nonoverlapping_b_sound; vm_compute; reflexivity.
  - apply values_token_free_b_sound; vm_compute; reflexivity.
  - exact H.
Defined.

(** C4 (counterexample): with [A=safekeeper], the template line
    [//go:generate ENV_A] names no [safekeeper] and is kept; after
    substitution it is a safekeeper directive, so the output holds two
    directive lines. *)
Lemma C4_counterexample :
  is_directive (lit "//go:generate ENV_A") = false /\
  exists b, run_directive = ([EvStat (lit "a.go"); EvOpen (lit "a.go.safekeeper");
                              EvWriteFile (lit "a.go") b], Done tt)
    /\ filter is_directive (raw_lines b)
       = [lit "//go:generate safekeeper --keys=A $GOFILE"; lit "//go:generate safekeeper"].
Proof.
  split; [vm_compute; reflexivity|].
  exists (writeHeader (flags_for "A" "a.go") [] ++ line "//go:generate safekeeper").
  split; vm_compute; reflexivity.
Qed.

(** C4 (amended): on success the body is the concatenation, over the
    scanned template lines, of what each line contributes; a line
    contributes nothing exactly when, before substitution, it contains both
    [go:generate] and [safekeeper]. A kept line may still become such a
    directive after substitution. *)
Theorem C4_directive_lines (it : map_iter) (env : environ) (F : fs) (fl : flags)
  (tr : list event) :
  main it env F fl [] = (tr, Done tt) ->
  exists m p d ls,
    stat F (templateFileName p) = Some (File d) /\ scan_lines d = Some ls
    /\ tr = [EvStat p; EvOpen (templateFileName p);
             EvWriteFile (out_path fl p)
               (writeHeader fl [] ++ concat (map (emit_line (setupReplacers it m)) ls))]
    /\ forall l, In l ls ->
         (emit_line (setupReplacers it m) l = [] <-> is_directive l = true).
Proof.
  intros H.
  destruct (main_success_inv it env F fl [] tr H)
    as [m [p [d0 [d [ls [_ [_ [_ [Hs [Hd [_ Htr]]]]]]]]]]].
  exists m, p, d, ls. split; [exact Hs|]. split; [exact Hd|]. split.
  - rewrite Htr. unfold body. rewrite flat_map_concat_map. reflexivity.
  - intros l _. unfold emit_line, Sprintln. destruct (is_directive l).
    + split; reflexivity.
    + split; intros He; [|discriminate].
      destruct (apply_replacers (setupReplacers it m) l); discriminate.
Qed.

Lemma C4_witness :
  exists tr, run_directive = (tr, Done tt) /\
  exists m p d ls,
    stat (fs_tpl (line "//go:generate ENV_A")) (templateFileName p) = Some (File d)
    /\ scan_lines d = Some ls
    /\ tr = [EvStat p; EvOpen (templateFileName p);
             EvWriteFile (out_path (flags_for "A" "a.go") p)
               (writeHeader (flags_for "A" "a.go") []
                ++ concat (map (emit_line (setupReplacers iter_id m)) ls))]
    /\ forall l, In l ls ->
         (emit_line (setupReplacers iter_id m) l = [] <-> is_directive l = true).
Proof.
  assert (H : run_directive = (fst run_directive, Done tt)) by (vm_compute; reflexivity).
  exists (fst run_directive). split; [exact H|].
  exact (C4_directive_lines iter_id env_sk (fs_tpl (line "//go:generate ENV_A"))
           (flags_for "A" "a.go") _ H).
Defined.

(** C5: keys are looked up in the order given; if every key before [k0]
    resolves and [k0] does not, the run exits with the missing-variable
    error naming [k0], before any stat, open or write (the trace is
    unchanged). *)
Theorem C5_first_missing_key (it : map_iter) (env : environ) (F : fs) (fl : flags)
  (tr0 : list event) (pre : list gostr) (k0 : gostr) (post : list gostr) :
  split_comma (keyNames fl) = pre ++ k0 :: post ->
  Forall (fun k => getenv env k <> []) pre -> getenv env k0 = [] ->
  main it env F fl tr0 = (tr0, Exit (ErrMissingEnv k0)).
Proof.
  intros Hks Hpre Hk0. unfold main, run, loadKeyValues. rewrite Hks.
  rewrite (loadKeyValues_go_first env pre post k0 [] Hpre Hk0). reflexivity.
Qed.

Lemma C5_witness :
  run_keys "A,B" [] = ([], Exit (ErrMissingEnv (lit "B"))).
Proof.
  apply (C5_first_missing_key iter_id env_a1 (fs_tpl (line "x")) (flags_for "A,B" "a.go")
           [] [lit "A"] (lit "B") []).
  - vm_compute; reflexivity.
  - constructor; [vm_compute; discriminate | constructor].
  - vm_compute; reflexivity.
Defined.

(** C6: unless the input is exactly one path naming an existing
    non-directory, the run exits with an error, and the only effects it
    had are [os.Stat] calls: no template is opened, no file written. *)
Theorem C6_unsupported_input (it : map_iter) (env : environ) (F : fs) (fl : flags) :
  (forall p d, paths fl = [p] -> stat F p <> Some (File d)) ->
  exists e tr, main it env F fl [] = (tr, Exit e)
    /\ Forall (fun ev => exists q, ev = EvStat q) tr.
Proof. exact (main_no_paths it env F fl). Qed.

Lemma C6_witness :
  exists e tr, main iter_id env_a1 fs_dir (mkFlags (lit "A") [] [lit "d"]) [] = (tr, Exit e)
    /\ Forall (fun ev => exists q, ev = EvStat q) tr.
Proof.
  apply C6_unsupported_input.
  intros p d Hp; injection Hp as <-. vm_compute; discriminate.
Defined.

(** C7: for the input path [p], the only file opened is
    [p ++ ".safekeeper"] and, on success, the body is made from its lines;
    if that file does not exist the run fails without writing, and once it
    was tried the error is the template-not-found error. *)
Theorem C7_template_name (it : map_iter) (env : environ) (F : fs) (fl : flags)
  (p : gostr) (tr : list event) (o : outcome unit) :
  paths fl = [p] -> main it env F fl [] = (tr, o) ->
  (forall q, In (EvOpen q) tr -> q = p ++ lit ".safekeeper")
  /\ (o = Done tt -> exists m d ls,
        stat F (p ++ lit ".safekeeper") = Some (File d) /\ scan_lines d = Some ls
        /\ In (EvWriteFile (out_path fl p) (writeHeader fl [] ++ body (setupReplacers it m) ls)) tr)
  /\ (stat F (p ++ lit ".safekeeper") = None ->
        (exists e, o = Exit e) /\ (forall o' b, ~ In (EvWriteFile o' b) tr)
        /\ (In (EvOpen (p ++ lit ".safekeeper")) tr ->
              o = Exit (ErrTemplateNotFound (p ++ lit ".safekeeper")))).
Proof.
  intros Hp H.
  destruct (main_cases it env F fl p Hp)
    as [[e He]|[[e He]|[[e [He Hnf]]|[o' [b [d [He Hs]]]]]]];
    rewrite He in H; injection H as <- <-.
  - split; [intros q []|]. split; [discriminate|].
    intros _; split; [eauto|]. split; [intros o' b []|intros []].
  - split; [intros q [Hq|[]]; discriminate|]. split; [discriminate|].
    intros _; split; [eauto|]. split; [intros o' b [Hq|[]]; discriminate|].
    intros [Hq|[]]; discriminate.
  - split; [intros q [Hq|[Hq|[]]]; [discriminate | injection Hq as <-; reflexivity]|].
    split; [discriminate|].
    intros Hn; split; [eauto|]. split; [intros o' b [Hq|[Hq|[]]]; discriminate|].
    intros _. rewrite (Hnf Hn). reflexivity.
  - split; [intros q [Hq|[Hq|[Hq|[]]]]; try discriminate; injection Hq as <-; reflexivity|].
    split.
    + intros _. pose proof He as H0.
      destruct (main_success_inv it env F fl [] _ H0)
        as [m [p' [d0 [d' [ls [_ [Hp' [_ [Hs' [Hd [_ Htr]]]]]]]]]]].
      rewrite Hp in Hp'; injection Hp' as <-.
      exists m, d', ls. split; [exact Hs'|]. split; [exact Hd|].
      rewrite Htr. right; right; left; reflexivity.
    + unfold templateFileName in Hs. intros Hn. rewrite Hn in Hs; discriminate.
Qed.

Lemma C7_witness :
  (forall q, In (EvOpen q) (fst run_x) -> q = lit "a.go" ++ lit ".safekeeper")
  /\ (snd run_x = Done tt -> exists m d ls,
        stat (fs_tpl (line "x")) (lit "a.go" ++ lit ".safekeeper") = Some (File d)
        /\ scan_lines d = Some ls
        /\ In (EvWriteFile (out_path (flags_for "A" "a.go") (lit "a.go"))
                 (writeHeader (flags_for "A" "a.go") [] ++ body (setupReplacers iter_id m) ls))
              (fst run_x))
  /\ (stat (fs_tpl (line "x")) (lit "a.go" ++ lit ".safekeeper") = None ->
        (exists e, snd run_x = Exit e) /\ (forall o' b, ~ In (EvWriteFile o' b) (fst run_x))
        /\ (In (EvOpen (lit "a.go" ++ lit ".safekeeper")) (fst run_x) ->
              snd run_x = Exit (ErrTemplateNotFound (lit "a.go" ++ lit ".safekeeper")))).
Proof.
  apply (C7_template_name iter_id env_a1 (fs_tpl (line "x")) (flags_for "A" "a.go")).
  - reflexivity.
  - vm_compute; reflexivity.
Defined.

(** C8 (counterexample): two valid iteration orders of the same map, with
    non-overlapping tokens, give different runs on the same inputs: Go may
    pick either order on each run. *)
Lemma C8_counterexample :
  valid_iter iter_id /\ valid_iter iter_rev
  /\ keys_nonoverlapping (split_comma (keyNames fl_ab))
  /\ run_chain iter_id <> run_chain iter_rev.
Proof.
  split; [intros m; apply Permutation_refl|].
  split; [intros m; apply Permutation_sym, Permutation_rev|].
  split; [apply keys_nonoverlapping_b_sound; vm_compute; reflexivity|].
  intros H. vm_compute in H. discriminate H.
Qed.

(** C8 (amended): when the tokens of distinct keys do not overlap and no
    resolved value shares a byte with a token, the run (effects, written
    bytes and outcome) is the same for every iteration order of the map. *)
Theorem C8_order_independent (it1 it2 : map_iter) (env : environ) (F : fs) (fl : flags) :
  valid_iter it1 -> valid_iter it2 ->
  keys_nonoverlapping (split_comma (keyNames fl)) ->
  values_token_free env (split_comma (keyNames fl)) ->
  main it1 env F fl [] = main it2 env F fl [].
Proof.
  intros H1 H2 Hov Hfree. apply main_iter_ext. intros m l Hm.
  rewrite (apply_setup_spec it1 env _ m l H1 Hm Hov Hfree).
  rewrite (apply_setup_spec it2 env _ m l H2 Hm Hov Hfree). reflexivity.
Qed.

Lemma C8_witness : run_12 iter_id = run_12 iter_rev.
Proof.
  apply C8_order_independent.
  - intros m; apply Permutation_refl.
  - intros m; apply Permutation_sym, Permutation_rev.
  - apply keys_nonoverlapping_b_sound; vm_compute; reflexivity.
  - apply values_token_free_b_sound; vm_compute; reflexivity.
Defined.

(** C9: if the comma-split key list has an empty element, the run exits
    with a missing-variable error before any effect. *)
Theorem C9_empty_key (it : map_iter) (env : environ) (F : fs) (fl : flags)
  (tr0 : list event) :
  In [] (split_comma (keyNames fl)) ->
  exists k, main it env F fl tr0 = (tr0, Exit (ErrMissingEnv k)).
Proof.
  intros Hin. unfold main, run, loadKeyValues.
  destruct (loadKeyValues_go_missing env _ [] [] Hin eq_refl) as [k Hk].
  rewrite Hk. exists k; reflexivity.
Qed.

Lemma C9_witness : exists k, run_keys "A,,B" [] = ([], Exit (ErrMissingEnv k)).
Proof.
  apply C9_empty_key. vm_compute. right; left; reflexivity.
Defined.

(** C10: on success the written bytes are the header followed by, for
    each kept template line, the transformed line and exactly one newline;
    the file ends with a newline whether or not the template does. *)
Theorem C10_trailing_newline (it : map_iter) (env : environ) (F : fs) (fl : flags)
  (tr : list event) :
  main it env F fl [] = (tr, Done tt) ->
  exists p m ls b,
    tr = [EvStat p; EvOpen (templateFileName p); EvWriteFile (out_path fl p) b]
    /\ b = writeHeader fl []
           ++ flat_map (fun l => apply_replacers (setupReplacers it m) l ++ [nl])
                (filter (fun l => negb (is_directive l)) ls)
    /\ exists pre, b = pre ++ [nl].
Proof.
  intros H.
  destruct (main_success_inv it env F fl [] tr H)
    as [m [p [d0 [d [ls [_ [_ [_ [_ [_ [_ Htr]]]]]]]]]]].
  exists p, m, ls, (writeHeader fl [] ++ body (setupReplacers it m) ls).
  split; [exact Htr|]. split.
  - f_equal. unfold body. clear. induction ls as [|l ls IH]; [reflexivity|].
    simpl. unfold emit_line at 1, Sprintln at 1. destruct (is_directive l); simpl;
      rewrite IH; reflexivity.
  - rewrite writeHeader_lines. unfold Sprintln at 2. rewrite app_assoc.
    apply body_ends_nl.
Qed.

Lemma C10_witness :
  exists p m ls b,
    fst run_nonl = [EvStat p; EvOpen (templateFileName p);
                    EvWriteFile (out_path (flags_for "A" "a.go") p) b]
    /\ b = writeHeader (flags_for "A" "a.go") []
           ++ flat_map (fun l => apply_replacers (setupReplacers iter_id m) l ++ [nl])
                (filter (fun l => negb (is_directive l)) ls)
    /\ exists pre, b = pre ++ [nl].
Proof.
  apply (C10_trailing_newline iter_id env_a1 (fs_tpl (lit "x")) (flags_for "A" "a.go")).
  vm_compute; reflexivity.
Defined.

End Claims.

(** * Further properties of the code *)

Module Extras.

(** ** Helper lemmas *)

Lemma replace_go_bytes (r : replacer) (k : nat) (s : gostr) (a : ascii) :
  In a (replace_go r k s) -> In a s \/ In a (r_new r).
Proof.
  revert k; induction s as [|c s IH]; intros k H; simpl in H; [contradiction|].
  destruct k as [|k].
  - destruct (is_prefix (r_old r) (c :: s)).
    + apply in_app_iff in H as [H|H]; [right; exact H|].
      destruct (IH _ H) as [H'|H']; [left; right; exact H' | right; exact H'].
    + destruct H as [<-|H]; [left; left; reflexivity|].
      destruct (IH _ H) as [H'|H']; [left; right; exact H' | right; exact H'].
  - destruct (IH _ H) as [H'|H']; [left; right; exact H' | right; exact H'].
Qed.

Lemma apply_replacers_bytes (rs : list replacer) (l : gostr) (a : ascii) :
  In a (apply_replacers rs l) -> In a l \/ exists r, In r rs /\ In a (r_new r).
Proof.
  unfold apply_replacers. revert l; induction rs as [|r rs IH]; intros l H; simpl in H;
    [left; exact H|].
  destruct (IH _ H) as [H'|[r' [Hr' Ha]]].
  - destruct (replace_go_bytes r 0 l a H') as [H''|H'']; [left; exact H''|].
    right; exists r; split; [left; reflexivity | exact H''].
  - right; exists r'; split; [right; exact Hr' | exact Ha].
Qed.

Lemma raw_lines_go_nl (acc d : gostr) :
  ~ In nl acc -> forall l, In l (raw_lines_go acc d) -> ~ In nl l.
Proof.
  revert acc; induction d as [|c d IH]; intros acc Hacc l Hl; simpl in Hl.
  - destruct acc; simpl in Hl; [contradiction|].
    destruct Hl as [<-|[]]. intros Hn; apply Hacc, (proj2 (in_rev _ _)); exact Hn.
  - destruct (Ascii.eqb c nl) eqn:E.
    + destruct Hl as [<-|Hl]; [intros Hn; apply Hacc, (proj2 (in_rev _ _)); exact Hn|].
      exact (IH [] (fun H => H) l Hl).
    + apply (IH (c :: acc)); [|exact Hl].
      intros [H|H]; [subst c; rewrite Ascii.eqb_refl in E; discriminate | exact (Hacc H)].
Qed.

Lemma dropCR_sub (l : gostr) (a : ascii) : In a (dropCR l) -> In a l.
Proof.
  unfold dropCR. destruct (rev l) as [|c r] eqn:E; [auto|].
  destruct (Ascii.eqb c cr); [|auto].
  intros H. apply (proj2 (in_rev _ _)). rewrite E. right; exact (proj2 (in_rev _ _) H).
Qed.

Lemma scan_lines_nl (d : gostr) (ls : list gostr) :
  scan_lines d = Some ls -> forall l, In l ls -> ~ In nl l.
Proof.
  unfold scan_lines. destruct (forallb _ _); intros H; [|discriminate].
  injection H as <-. intros l Hl. apply in_map_iff in Hl as [l0 [<- Hl0]].
  intros Hn. apply dropCR_sub in Hn. exact (raw_lines_go_nl [] d (fun H => H) l0 Hl0 Hn).
Qed.

Lemma raw_lines_concat (xs : list gostr) :
  (forall x, In x xs -> ~ In nl x) -> raw_lines (concat (map Sprintln xs)) = xs.
Proof.
  induction xs as [|x xs IH]; intros H; [reflexivity|].
  simpl. rewrite raw_lines_Sprintln by (apply H; left; reflexivity).
  rewrite IH by (intros y Hy; apply H; right; exact Hy). reflexivity.
Qed.

Lemma body_concat (rs : list replacer) (ls : list gostr) :
  body rs ls = concat (map Sprintln (map (apply_replacers rs)
                                      (filter (fun l => negb (is_directive l)) ls))).
Proof.
  induction ls as [|l ls IH]; [reflexivity|].
  unfold body in *; simpl. unfold emit_line at 1.
  destruct (is_directive l); simpl; rewrite IH; reflexivity.
Qed.

Lemma Replace_absent (t v s : gostr) :
  t <> [] -> contains t s = false -> Replace (mkReplacer t v) s = s.
Proof.
  intros Ht Hc. rewrite Replace_subst.
  assert (tok : forall q, In q [(t, v)] -> fst q <> []) by (intros q [<-|[]]; exact Ht).
  destruct (subst_all_struct [(t, v)] tok s)
    as [[_ Hs]|[x [t' [v' [y [Hs [Hin _]]]]]]]; [exact Hs|].
  destruct Hin as [Heq|[]]. injection Heq as <- <-.
  rewrite Hs, contains_mid in Hc. discriminate.
Qed.

Lemma apply_replacers_absent (rs : list replacer) (s : gostr) :
  (forall r, In r rs -> r_old r <> [] /\ contains (r_old r) s = false) ->
  apply_replacers rs s = s.
Proof.
  unfold apply_replacers. induction rs as [|[t v] rs IH] using rev_ind; intros H; [reflexivity|].
  rewrite fold_left_app. simpl. rewrite IH by (intros r Hr; apply H, in_or_app; left; exact Hr).
  destruct (H (mkReplacer t v)) as [H1 H2]; [apply in_or_app; right; left; reflexivity|].
  apply Replace_absent; assumption.
Qed.

Lemma contains_token_ENV (k s : gostr) :
  contains (token k) s = true -> contains (lit "ENV_") s = true.
Proof.
  intros H. destruct (contains_inv _ _ H) as [u [w ->]]. unfold token.
  rewrite <- app_assoc. apply contains_mid.
Qed.

Lemma loadKeyValues_go_error (env : environ) (ks : list gostr) (m0 : kvmap) (e : error) :
  loadKeyValues_go env ks m0 = inl e ->
  exists k, e = ErrMissingEnv k /\ In k ks /\ getenv env k = [].
Proof.
  revert m0; induction ks as [|k ks IH]; intros m0 H; simpl in H; [discriminate|].
  destruct (getenv env k) eqn:E.
  - injection H as <-. exists k; split; [reflexivity|]. split; [left; reflexivity | exact E].
  - destruct (IH _ H) as [k' [He [Hk Hg]]]. exists k'; split; [exact He|].
    split; [right; exact Hk | exact Hg].
Qed.

(** ** loadKeyValues *)

(** [loadKeyValues] succeeds exactly when every supplied key has a
    non-empty value. *)
Theorem loadKeyValues_ok_iff (env : environ) (ks : list gostr) :
  (exists m, loadKeyValues env ks = inr m) <-> Forall (fun k => getenv env k <> []) ks.
Proof.
  split.
  - intros [m Hm]. apply Forall_forall. intros k Hk Hg.
    destruct (loadKeyValues_go_missing env ks k [] Hk Hg) as [k' Hk'].
    unfold loadKeyValues in Hm. rewrite Hm in Hk'. discriminate.
  - intros H. exact (loadKeyValues_go_ok env ks [] H).
Qed.

(** Its only error is the missing-variable error, and it names a
    supplied key whose value is empty. *)
Theorem loadKeyValues_error_key (env : environ) (ks : list gostr) (e : error) :
  loadKeyValues env ks = inl e ->
  exists k, e = ErrMissingEnv k /\ In k ks /\ getenv env k = [].
Proof. apply loadKeyValues_go_error. Qed.

Lemma loadKeyValues_error_key_witness :
  exists k, ErrMissingEnv (lit "B") = ErrMissingEnv k /\ In k (split_comma (lit "A,B"))
            /\ getenv env_a1 k = [].
Proof. apply (loadKeyValues_error_key env_a1). vm_compute; reflexivity. Defined.

(** On success the map has one entry per distinct supplied key (a key
    given twice is stored once), holding that key's value. *)
Theorem loadKeyValues_map (env : environ) (ks : list gostr) (m : kvmap) :
  loadKeyValues env ks = inr m ->
  NoDup (map fst m) /\ forall k v, In (k, v) m <-> In k ks /\ v = getenv env k.
Proof.
  intros Hm. split; [exact (proj1 (loadKeyValues_props env ks m Hm))|].
  exact (loadKeyValues_entries env ks m Hm).
Qed.

Lemma loadKeyValues_map_witness :
  NoDup (map fst [(lit "A", lit "1"); (lit "B", lit "2")])
  /\ forall k v, In (k, v) [(lit "A", lit "1"); (lit "B", lit "2")]
       <-> In k (split_comma (lit "A,B,A")) /\ v = getenv env_12 k.
Proof. apply loadKeyValues_map. vm_compute; reflexivity. Defined.

(** ** setupReplacers *)

(** For any iteration order, the replacers are exactly one per distinct
    supplied key: every replacer has old string [ENV_<key>] for a supplied
    key and new string that key's value, every supplied key has such a
    replacer, and no two replacers share an old string. *)
Theorem setupReplacers_per_key (it : map_iter) (env : environ) (ks : list gostr) (m : kvmap) :
  valid_iter it -> loadKeyValues env ks = inr m ->
  NoDup (map r_old (setupReplacers it m))
  /\ forall r, In r (setupReplacers it m)
               <-> exists k, In k ks /\ r = mkReplacer (token k) (getenv env k).
Proof.
  intros Hit Hm. destruct (loadKeyValues_props env ks m Hm) as [Hnd _].
  pose proof (loadKeyValues_entries env ks m Hm) as He. split.
  - assert (E : map r_old (setupReplacers it m) = map token (map fst (it m)))
      by (unfold setupReplacers; rewrite !map_map; reflexivity).
    rewrite E. apply NoDup_map_inj; [exact token_inj|].
    exact (Permutation_NoDup (Permutation_map fst (Permutation_sym (Hit m))) Hnd).
  - intros r. unfold setupReplacers. rewrite in_map_iff. split.
    + intros [[k v] [<- Hin]]. simpl.
      destruct (proj1 (He k v) (Permutation_in _ (Hit m) Hin)) as [Hk ->].
      exists k. split; [exact Hk | reflexivity].
    + intros [k [Hk ->]]. exists (k, getenv env k). split; [reflexivity|].
      exact (Permutation_in _ (Permutation_sym (Hit m)) (proj2 (He k _) (conj Hk eq_refl))).
Qed.

Lemma setupReplacers_per_key_witness :
  NoDup (map r_old (setupReplacers iter_rev [(lit "A", lit "1"); (lit "B", lit "2")]))
  /\ forall r, In r (setupReplacers iter_rev [(lit "A", lit "1"); (lit "B", lit "2")])
               <-> exists k, In k (split_comma (lit "A,B,A"))
                             /\ r = mkReplacer (token k) (getenv env_12 k).
Proof.
  apply (setupReplacers_per_key iter_rev env_12).
  - intros m; apply Permutation_sym, Permutation_rev.
  - vm_compute; reflexivity.
Defined.

(** ** strings.Replacer with one pair *)

(** A line without an occurrence of the old string is left unchanged. *)
Theorem Replace_no_occurrence (t v s : gostr) :
  t <> [] -> contains t s = false -> Replace (mkReplacer t v) s = s.
Proof. apply Replace_absent. Qed.

Lemma Replace_no_occurrence_witness :
  Replace (mkReplacer (lit "ENV_A") (lit "1")) (lit "ENV_B") = lit "ENV_B".
Proof. apply Replace_no_occurrence; vm_compute; [discriminate | reflexivity]. Defined.

(** When the new string is non-empty and shares no byte with the old one,
    no occurrence of the old string is left after the replacement. *)
Theorem Replace_removes_all (t v s : gostr) :
  t <> [] -> v <> [] -> (forall a, In a v -> ~ In a t) ->
  contains t (Replace (mkReplacer t v) s) = false.
Proof. intros Ht Hv Hf. rewrite Replace_subst. apply contains_after_own; assumption. Qed.

Lemma Replace_removes_all_witness :
  contains (lit "ENV_A") (Replace (mkReplacer (lit "ENV_A") (lit "1")) (lit "ENV_ENV_AA")) = false.
Proof.
  apply Replace_removes_all; [vm_compute; discriminate | vm_compute; discriminate|].
  intros a Ha. apply not_in_of_existsb. destruct Ha as [<-|[]]. vm_compute; reflexivity.
Defined.

(** The replacement introduces no byte other than those of the line and
    of the new string. *)
Theorem Replace_bytes (r : replacer) (s : gostr) (a : ascii) :
  In a (Replace r s) -> In a s \/ In a (r_new r).
Proof. apply replace_go_bytes. Qed.

Lemma Replace_bytes_witness :
  In "1"%char (lit "ENV_A") \/ In "1"%char (r_new (mkReplacer (lit "ENV_A") (lit "1"))).
Proof. apply (Replace_bytes _ (lit "ENV_A")). vm_compute; left; reflexivity. Defined.

(** ** errWriter and writeHeader *)

(** With a [bytes.Buffer], [writeHeader] returns no error and appends the
    warning line, then the directive line, to the buffer. *)
Theorem writeHeader_go_buffer (fl : flags) (buffer : gostr) :
  writeHeader_go Buffer_WriteString fl buffer = (writeHeader fl buffer, None).
Proof.
  unfold writeHeader_go, writeString, Buffer_WriteString, writeHeader. simpl.
  destruct (output fl); simpl; rewrite <- !app_assoc; reflexivity.
Qed.


Lemma dropCR_id (l : gostr) : (forall r, l <> r ++ [cr]) -> dropCR l = l.
Proof.
  intros H. unfold dropCR. destruct (rev l) as [|c r] eqn:E; [reflexivity|].
  destruct (Ascii.eqb c cr) eqn:Ec; [|reflexivity].
  apply Ascii.eqb_eq in Ec; subst c. exfalso. apply (H (rev r)).
  rewrite <- (rev_involutive l), E. reflexivity.
Qed.


Lemma scan_lines_raw (d : gostr) :
  forallb (fun l => Nat.ltb (length l) MaxScanTokenSize) (raw_lines d) = true ->
  scan_lines d = Some (map dropCR (raw_lines d)).
Proof. unfold scan_lines; intros H; rewrite H; reflexivity. Qed.

Lemma join_comma_cons (x : gostr) (xs : list gostr) :
  xs <> [] -> join_comma (x :: xs) = x ++ ","%char :: join_comma xs.
Proof. destruct xs; [congruence | reflexivity]. Qed.

Lemma split_go_props (acc s : gostr) :
  split_go acc s <> [] /\ join_comma (split_go acc s) = rev acc ++ s
  /\ (~ In ","%char acc -> Forall (fun x => ~ In ","%char x) (split_go acc s)).
Proof.
  revert acc; induction s as [|c s IH]; intros acc; simpl.
  - split; [discriminate|]. split; [symmetry; apply app_nil_r|].
    intros H; constructor; [rewrite <- in_rev; exact H | constructor].
  - destruct (Ascii.eqb c ","%char) eqn:Ec.
    + apply Ascii.eqb_eq in Ec; subst c. destruct (IH []) as [H1 [H2 H3]].
      split; [discriminate|]. split.
      * rewrite join_comma_cons by exact H1. rewrite H2. reflexivity.
      * intros H. constructor; [rewrite <- in_rev; exact H | apply H3; intros []].
    + destruct (IH (c :: acc)) as [H1 [H2 H3]]. split; [exact H1|]. split.
      * rewrite H2. simpl. rewrite <- app_assoc. reflexivity.
      * intros H. apply H3. intros [Hc|Hc]; [|exact (H Hc)].
        subst c. rewrite Ascii.eqb_refl in Ec. discriminate.
Qed.

(** ** run *)

(** If the template exists but cannot be read (it is a directory, or a
    line has 64 KiB or more), the run stops with the scanner's error after
    opening it, and writes nothing. *)
Theorem main_read_error (it : map_iter) (env : environ) (F : fs) (fl : flags)
  (m : kvmap) (p d0 : gostr) (e : entry) :
  loadKeyValues env (split_comma (keyNames fl)) = inr m -> paths fl = [p] ->
  stat F p = Some (File d0) -> stat F (templateFileName p) = Some e ->
  (e = Dir \/ exists d l, e = File d /\ In l (raw_lines d) /\ MaxScanTokenSize <= length l) ->
  main it env F fl [] = ([EvStat p; EvOpen (templateFileName p)], Exit ErrRead).
Proof.
  intros Hm Hp Hs0 Hs He.
  assert (Hr : read_template e = None).
  { destruct He as [->|[d [l [-> [Hl Hlen]]]]]; [reflexivity|]. simpl. unfold scan_lines.
    destruct (forallb _ _) eqn:Ef; [|reflexivity].
    rewrite forallb_forall in Ef. specialize (Ef l Hl). apply Nat.ltb_lt in Ef. lia. }
  unfold main, run. rewrite Hm, Hp. unfold bind, isFile, emit, ret. rewrite Hs0.
  unfold substituteValues, openTemplateFile, bind, emit, ret, fatal. rewrite Hs, Hr.
  reflexivity.
Qed.

Lemma main_read_error_witness :
  main iter_id env_a1 fs_tpldir (flags_for "A" "a.go") []
  = ([EvStat (lit "a.go"); EvOpen (templateFileName (lit "a.go"))], Exit ErrRead).
Proof.
  apply (main_read_error _ _ _ _ [(lit "A", lit "1")] (lit "a.go") (lit "package a") Dir).
  - vm_compute; reflexivity.
  - reflexivity.
  - vm_compute; reflexivity.
  - vm_compute; reflexivity.
  - left; reflexivity.
Defined.


(** If the input path does not exist, the run fails with the stat error
    naming it, and neither opens the template nor writes. *)
Theorem main_stat_error (it : map_iter) (env : environ) (F : fs) (fl : flags)
  (m : kvmap) (p : gostr) :
  loadKeyValues env (split_comma (keyNames fl)) = inr m -> paths fl = [p] ->
  stat F p = None ->
  main it env F fl [] = ([EvStat p], Exit (ErrStat p)).
Proof.
  intros Hm Hp Hs. unfold main, run. rewrite Hm, Hp.
  unfold bind, isFile, emit, fatal. rewrite Hs. reflexivity.
Qed.

Lemma main_stat_error_witness :
  main iter_id env_a1 (fs_tpl (line "x")) (flags_for "A" "b.go") []
  = ([EvStat (lit "b.go")], Exit (ErrStat (lit "b.go"))).
Proof.
  apply (main_stat_error _ _ _ _ [(lit "A", lit "1")]); vm_compute; reflexivity.
Defined.

(** A successful run writes exactly one file: the [--output] path when it
    is set, the input path itself otherwise. *)
Theorem main_write_target (it : map_iter) (env : environ) (F : fs) (fl : flags)
  (p : gostr) (tr : list event) :
  paths fl = [p] -> main it env F fl [] = (tr, Done tt) ->
  exists o b, tr = [EvStat p; EvOpen (p ++ lit ".safekeeper"); EvWriteFile o b]
    /\ (output fl = [] -> o = p) /\ (output fl <> [] -> o = output fl).
Proof.
  intros Hp H.
  destruct (main_success_inv it env F fl [] tr H)
    as [m [p' [d0 [d [ls [_ [Hp' [_ [_ [_ [_ Htr]]]]]]]]]]].
  rewrite Hp in Hp'. injection Hp' as <-.
  exists (out_path fl p), (writeHeader fl [] ++ body (setupReplacers it m) ls).
  split; [exact Htr|]. unfold out_path. destruct (output fl); split; intros Ho; congruence.
Qed.

Lemma main_write_target_witness :
  exists o b, fst (main iter_id env_a1 (fs_tpl (line "x")) fl_out [])
              = [EvStat (lit "a.go"); EvOpen (lit "a.go" ++ lit ".safekeeper"); EvWriteFile o b]
    /\ (output fl_out = [] -> o = lit "a.go") /\ (output fl_out <> [] -> o = output fl_out).
Proof.
  apply (main_write_target iter_id env_a1 (fs_tpl (line "x")) fl_out (lit "a.go")).
  - reflexivity.
  - vm_compute; reflexivity.
Defined.

(** If every scanned line of the template is a safekeeper directive (in
    particular if the template is empty), a successful run writes the
    header alone. *)
Theorem main_directives_only (it : map_iter) (env : environ) (F : fs) (fl : flags)
  (p d : gostr) (tr : list event) :
  paths fl = [p] -> stat F (templateFileName p) = Some (File d) ->
  (forall l, In l (raw_lines d) -> is_directive (dropCR l) = true) ->
  main it env F fl [] = (tr, Done tt) ->
  tr = [EvStat p; EvOpen (templateFileName p); EvWriteFile (out_path fl p) (writeHeader fl [])].
Proof.
  intros Hp Hs Hdir H.
  destruct (main_success_inv it env F fl [] tr H)
    as [m [p' [d0 [d' [ls [_ [Hp' [_ [Hs' [Hd [_ Htr]]]]]]]]]]].
  rewrite Hp in Hp'. injection Hp' as <-. rewrite Hs in Hs'. injection Hs' as <-.
  assert (Hls : ls = map dropCR (raw_lines d)).
  { unfold scan_lines in Hd. destruct (forallb _ _); [injection Hd as <-; reflexivity | discriminate]. }
  assert (Hb : body (setupReplacers it m) ls = []).
  { rewrite Hls. clear -Hdir. induction (raw_lines d) as [|l r IH]; [reflexivity|].
    unfold body in *. simpl. unfold emit_line at 1.
    rewrite (Hdir l (or_introl eq_refl)). apply IH. intros l' Hl'; apply Hdir; right; exact Hl'. }
  rewrite Htr, Hb, app_nil_r. reflexivity.
Qed.

Lemma main_directives_only_witness :
  fst (main iter_id env_a1 fs_dironly (flags_for "A" "a.go") [])
  = [EvStat (lit "a.go"); EvOpen (templateFileName (lit "a.go"));
     EvWriteFile (out_path (flags_for "A" "a.go") (lit "a.go"))
       (writeHeader (flags_for "A" "a.go") [])].
Proof.
  apply (main_directives_only iter_id env_a1 fs_dironly (flags_for "A" "a.go")
           (lit "a.go") (line "//go:generate safekeeper --keys=A")).
  - reflexivity.
  - vm_compute; reflexivity.
  - intros l Hl. vm_compute in Hl. destruct Hl as [<-|[]]. vm_compute; reflexivity.
  - vm_compute; reflexivity.
Defined.

(** ** strings.Split and bufio.Scanner *)

(** Splitting the [--keys] value at commas gives at least one element, no
    element holds a comma, and joining the elements with commas gives the
    value back. *)
Theorem split_comma_join (s : gostr) :
  join_comma (split_comma s) = s /\ split_comma s <> []
  /\ Forall (fun x => ~ In ","%char x) (split_comma s).
Proof.
  destruct (split_go_props [] s) as [H1 [H2 H3]].
  split; [exact H2|]. split; [exact H1|]. apply H3. intros [].
Qed.

(** The scanner gives back the lines that were each printed with
    [fmt.Sprintln], when they hold no newline, are shorter than 64 KiB and
    do not end in a carriage return. *)
Theorem scan_lines_Sprintln (ls : list gostr) :
  Forall (fun l => ~ In nl l /\ length l < MaxScanTokenSize /\ forall r, l <> r ++ [cr]) ls ->
  scan_lines (concat (map Sprintln ls)) = Some ls.
Proof.
  intros H. rewrite Forall_forall in H.
  assert (Hr : raw_lines (concat (map Sprintln ls)) = ls)
    by (apply raw_lines_concat; intros x Hx; apply (H x Hx)).
  rewrite scan_lines_raw; rewrite Hr.
  - f_equal. rewrite <- (map_id ls) at 2. apply map_ext_in. intros l Hl. apply dropCR_id, H, Hl.
  - apply forallb_forall. intros l Hl. apply Nat.ltb_lt, H, Hl.
Qed.

Lemma scan_lines_Sprintln_witness :
  scan_lines (concat (map Sprintln [lit "a"; []; lit "b"])) = Some [lit "a"; []; lit "b"].
Proof.
  apply scan_lines_Sprintln.
  repeat (apply Forall_cons; [split; [|split]|]); try apply Forall_nil.
  all: try (apply not_in_of_existsb; reflexivity).
  all: try (apply (Nat.le_lt_trans _ 1); [apply Nat.leb_le; reflexivity | unfold MaxScanTokenSize; lia]).
  all: intros r Hr; apply (f_equal (@rev ascii)) in Hr; rewrite rev_app_distr in Hr;
       simpl in Hr; discriminate Hr.
Defined.



(** ** The lines of the output *)

(** When the flags and the resolved values hold no newline, the written
    file's lines are the warning, the directive line, then each scanned
    template line that is not a directive, transformed, in template order. *)
Theorem main_output_lines (it : map_iter) (env : environ) (F : fs) (fl : flags)
  (tr : list event) :
  valid_iter it ->
  ~ In nl (keyNames fl) -> ~ In nl (output fl) ->
  (forall k, In k (split_comma (keyNames fl)) -> ~ In nl (getenv env k)) ->
  main it env F fl [] = (tr, Done tt) ->
  exists m p d ls b,
    loadKeyValues env (split_comma (keyNames fl)) = inr m
    /\ stat F (templateFileName p) = Some (File d) /\ scan_lines d = Some ls
    /\ tr = [EvStat p; EvOpen (templateFileName p); EvWriteFile (out_path fl p) b]
    /\ raw_lines b = header_line1 :: directive_line fl
                     :: map (apply_replacers (setupReplacers it m))
                          (filter (fun l => negb (is_directive l)) ls).
Proof.
  intros Hit Hk Ho Hv H.
  destruct (main_success_inv it env F fl [] tr H)
    as [m [p [d0 [d [ls [Hm [_ [_ [Hs [Hd [_ Htr]]]]]]]]]]].
  exists m, p, d, ls, (writeHeader fl [] ++ body (setupReplacers it m) ls).
  split; [exact Hm|]. split; [exact Hs|]. split; [exact Hd|]. split; [exact Htr|].
  rewrite writeHeader_lines, <- app_assoc.
  rewrite raw_lines_Sprintln by exact header_line1_nl.
  rewrite raw_lines_Sprintln by exact (directive_line_nl fl Hk Ho).
  rewrite body_concat, raw_lines_concat; [reflexivity|].
  intros x Hx Hn. apply in_map_iff in Hx as [l [<- Hl]]. apply filter_In in Hl as [Hl _].
  destruct (apply_replacers_bytes _ _ _ Hn) as [Hn'|[r [Hr Hn']]].
  - exact (scan_lines_nl d ls Hd l Hl Hn').
  - unfold setupReplacers in Hr. apply in_map_iff in Hr as [[k v] [<- Hkv]]. simpl in Hn'.
    destruct (proj1 (loadKeyValues_entries env _ m Hm k v) (Permutation_in _ (Hit m) Hkv))
      as [Hk' ->].
    exact (Hv k Hk' Hn').
Qed.

Lemma main_output_lines_witness :
  exists m p d ls b,
    loadKeyValues env_12 (split_comma (keyNames fl_12)) = inr m
    /\ stat fs_12 (templateFileName p) = Some (File d) /\ scan_lines d = Some ls
    /\ fst (run_12 iter_rev)
       = [EvStat p; EvOpen (templateFileName p); EvWriteFile (out_path fl_12 p) b]
    /\ raw_lines b = header_line1 :: directive_line fl_12
                     :: map (apply_replacers (setupReplacers iter_rev m))
                          (filter (fun l => negb (is_directive l)) ls).
Proof.
  apply (main_output_lines iter_rev env_12 fs_12 fl_12).
  - intros m; apply Permutation_sym, Permutation_rev.
  - apply not_in_of_existsb; vm_compute; reflexivity.
  - apply not_in_of_existsb; vm_compute; reflexivity.
  - intros k Hk. vm_compute in Hk. destruct Hk as [<-|[<-|[]]];
      apply not_in_of_existsb; vm_compute; reflexivity.
  - vm_compute; reflexivity.
Defined.

(** Fed back as template lines, the two header lines of a generated file
    give the warning line alone: the directive line is dropped and the
    warning, which holds no [ENV_] token, is copied unchanged. *)
Theorem header_rescan (it : map_iter) (m : kvmap) (fl : flags) :
  body (setupReplacers it m) [header_line1; directive_line fl] = Sprintln header_line1.
Proof.
  assert (Hw : is_directive header_line1 = false) by (vm_compute; reflexivity).
  assert (Hd : is_directive (directive_line fl) = true).
  { unfold is_directive, directive_line.
    rewrite !contains_app_l by (vm_compute; reflexivity). reflexivity. }
  unfold body. cbn [flat_map]. unfold emit_line. rewrite Hw, Hd. cbv beta iota.
  rewrite !app_nil_r. f_equal.
  apply apply_replacers_absent. intros r Hr.
  unfold setupReplacers in Hr. apply in_map_iff in Hr as [[k v] [<- _]]. simpl.
  split; [apply token_ne|].
  destruct (contains (token k) header_line1) eqn:C; [|reflexivity].
  apply contains_token_ENV in C. vm_compute in C. discriminate C.
Qed.

End Extras.
